(** * pgdb: file-based schema migrations over a single tracked row

    A shallow embedding of [migrations.go], [postgres.go] and [sort.go].

    Go code is effectful: it talks to a database, reads files, reads the
    clock and writes log lines.  Every method of [*Database] is embedded as
    a function over an explicit [World]; a Go [error] is an ordinary value
    ([option error], [None] being [nil]) returned next to the other results,
    exactly as the Go functions return it. *)

From Stdlib Require Import ZArith List String Ascii Bool Lia.
From Stdlib Require Import Permutation Sorted.
Import ListNotations.

Local Open Scope string_scope.
Local Open Scope list_scope.
Local Open Scope Z_scope.

Set Implicit Arguments.

(** ** Pieces of the Go standard library used by the package *)

Module Go.

(** [uint64(x)]: conversion to a 64-bit unsigned integer wraps around. *)
Definition uint64 (x : Z) : Z := x mod 2 ^ 64.

(** Largest [int]: the bound on the length of any slice. *)
Definition MaxInt : Z := 2 ^ 63 - 1.

(** [strconv.NumError.Err]: the two ways a number fails to parse. *)
Inductive num_err := ErrSyntax | ErrRange.

Definition is_digit (c : ascii) : bool :=
  (48 <=? Z.of_nat (nat_of_ascii c)) && (Z.of_nat (nat_of_ascii c) <=? 57).

Definition digit_val (c : ascii) : Z := Z.of_nat (nat_of_ascii c) - 48.

Definition maxUint64 : Z := 2 ^ 64 - 1.

(** The digit loop of [strconv.ParseUint(s, 10, 64)].  A byte that is not
    a decimal digit is a syntax error; the overflow tests come after the
    test of the byte, as in the library. *)
Fixpoint ParseUint_loop (s : string) (n : Z) : Z + num_err :=
  match s with
  | EmptyString => inl n
  | String c rest =>
      if negb (is_digit c) then inr ErrSyntax
      else if n >=? maxUint64 / 10 + 1 then inr ErrRange
      else
        let n1 := n * 10 + digit_val c in
        if n1 >? maxUint64 then inr ErrRange else ParseUint_loop rest n1
  end.

Definition ParseUint (s : string) : Z + num_err :=
  match s with
  | EmptyString => inr ErrSyntax
  | _ => ParseUint_loop s 0
  end.

(** [strconv.ParseInt(s, 10, 64)]: an optional sign, then [ParseUint],
    then the range of [int64]. *)
Definition ParseInt (s : string) : Z + num_err :=
  match s with
  | EmptyString => inr ErrSyntax
  | String c rest =>
      let neg := Ascii.eqb c "-" in
      let body := if Ascii.eqb c "+" || neg then rest else s in
      match ParseUint body with
      | inr e => inr e
      | inl un =>
          if negb neg && (un >=? 2 ^ 63) then inr ErrRange
          else if neg && (un >? 2 ^ 63) then inr ErrRange
          else inl (if neg then - un else un)
      end
  end.

(** [strings.HasPrefix]. *)
Fixpoint HasPrefix (s p : string) : bool :=
  match p, s with
  | EmptyString, _ => true
  | String a p', String b s' => Ascii.eqb a b && HasPrefix s' p'
  | String _ _, EmptyString => false
  end.

(** [strings.Replace(s, old, "", -1)] for a non-empty [old]: every
    non-overlapping occurrence of [old], from the left, is dropped.
    [skip] counts the bytes of the current occurrence still to drop. *)
Fixpoint Remove_from (skip : nat) (old s : string) : string :=
  match s with
  | EmptyString => EmptyString
  | String c rest =>
      match skip with
      | S k => Remove_from k old rest
      | O =>
          if HasPrefix s old then Remove_from (String.length old - 1) old rest
          else String c (Remove_from O old rest)
      end
  end.

Definition RemoveAll (s old : string) : string := Remove_from O old s.

Fixpoint contains (c : ascii) (s : string) : bool :=
  match s with
  | EmptyString => false
  | String a rest => Ascii.eqb a c || contains c rest
  end.

(** [filepath.Ext]: the suffix beginning at the final dot in the final
    slash-separated element of the path; empty when there is no dot. *)
Fixpoint Ext (path : string) : string :=
  match path with
  | EmptyString => EmptyString
  | String c rest =>
      if contains "/" rest || contains "." rest then Ext rest
      else if Ascii.eqb c "." then path else EmptyString
  end.

(** The base name reported by [os.FileInfo.Name]: what follows the last
    separator of the path. *)
Fixpoint Base (path : string) : string :=
  match path with
  | EmptyString => EmptyString
  | String c rest =>
      if contains "/" rest then Base rest
      else if Ascii.eqb c "/" then rest else path
  end.

(** [strings.Split(s, sep)] for a one-byte separator: the pieces between
    the separators; one piece, the empty one, for the empty string. *)
Fixpoint Split (s : string) (sep : ascii) : list string :=
  match s with
  | EmptyString => [EmptyString]
  | String c rest =>
      match Split rest sep with
      | piece :: pieces =>
          if Ascii.eqb c sep then EmptyString :: piece :: pieces
          else String c piece :: pieces
      | [] => [String c EmptyString]
      end
  end.

End Go.

(** ** The data model of [migrations.go] *)

(** [type Migration struct]; [Version] is a [uint64], [LastRun] a point in
    time counted in ticks of the world's clock. *)
Record Migration : Type := mkMigration {
  ID : string;
  File : string;
  Hash : string;
  Version : Z;
  Complete : bool;
  LastRun : Z
}.

(** [Migration{}], the zero value. *)
Definition zero_Migration : Migration :=
  {| ID := ""; File := ""; Hash := ""; Version := 0; Complete := false; LastRun := 0 |}.

(** [type MigrationStatus struct]: four [uint64] counters. *)
Record MigrationStatus : Type := mkStatus {
  Applied : Z;
  Failed : Z;
  Skipped : Z;
  Latest : Z
}.

(** Go errors.  The constructors named [Errorf_*] are the errors the package
    builds itself with [fmt.Errorf] and [errors.New]; the others come from
    its collaborators. *)
Inductive error : Type :=
| ErrNoRows                                      (* sql.ErrNoRows *)
| ErrDriver (msg : string)                       (* the connection or the server *)
| ErrOS (msg : string)                           (* the file system *)
| ErrNum (num : string) (why : Go.num_err)       (* *strconv.NumError *)
| Errorf_fetch (cause : error)                   (* failed to fetch current migration status: %s *)
| Errorf_failed (version : Z) (file : string)    (* migration %d in file %s appears to have failed, ... *)
| Errorf_modified                                (* migrations are up to date but appear to have been modified ... *)
| Errorf_open (cause : error)                    (* failed to open migration step: %s *)
| Errorf_block (i : nat) (cause : error).        (* failed to execute block %d of sql file: %s *)

(** [WHERE id = '1']. *)
Definition id_is_1 (r : Migration) : bool := String.eqb (ID r) "1".

(** [err == sql.ErrNoRows]. *)
Definition is_ErrNoRows (e : error) : bool :=
  match e with ErrNoRows => true | _ => false end.

(** ** [sort.go]: the three methods of [sort.Interface] *)

Definition MigrationSet : Type := list Migration.

Definition at_index (s : MigrationSet) (i : nat) : Migration := nth i s zero_Migration.

Fixpoint store (s : MigrationSet) (i : nat) (m : Migration) : MigrationSet :=
  match s, i with
  | [], _ => []
  | _ :: s', O => m :: s'
  | x :: s', S k => x :: store s' k m
  end.

Definition Len (s : MigrationSet) : nat := List.length s.

(** [s[i], s[j] = s[j], s[i]]: both right-hand sides are read first. *)
Definition Swap (s : MigrationSet) (i j : nat) : MigrationSet :=
  store (store s i (at_index s j)) j (at_index s i).

Definition Less (s : MigrationSet) (i j : nat) : bool :=
  Version (at_index s i) <? Version (at_index s j).

(** [sort.Sort] is the library's; it reaches the slice only through the
    three methods.  Its insertion sort, which is what it runs on short
    slices:
    [for i := 1; i < n; i++ { for j := i; j > 0 && Less(j, j-1); j-- { Swap(j, j-1) } }].
    On longer slices the library switches to other strategies, and [sort.Sort]
    is not stable: they return the same slice as this one when the
    versions are pairwise distinct ([sort_Sort_canonical]), and may leave
    migrations of equal version in another order. *)
Fixpoint sink (j : nat) (s : MigrationSet) : MigrationSet :=
  match j with
  | O => s
  | S k => if Less s (S k) k then sink k (Swap s (S k) k) else s
  end.

Definition sort_Sort (s : MigrationSet) : MigrationSet :=
  fold_left (fun acc i => sink i acc) (seq 1 (Len s - 1)) s.

(** The same sort on values instead of indices, used to reason about
    [sort_Sort]: [insert_desc] keeps the sorted prefix in reverse. *)
Fixpoint insert_desc (x : Migration) (rpre : list Migration) : list Migration :=
  match rpre with
  | [] => [x]
  | y :: r => if Version x <? Version y then y :: insert_desc x r else x :: y :: r
  end.

Definition insertion_sort (s : list Migration) : list Migration :=
  rev (fold_left (fun racc x => insert_desc x racc) s []).

(** ** [postgres.go]: configuration and handle *)

Record Config : Type := mkConfig {
  User : string;
  Password : string;
  Host : string;
  Port : string;
  DatabaseName : string;
  MigrationDir : string;
  SSLDisabled : bool;
  MaxIdleConns : Z;
  MaxOpenConns : Z;
  MaxConnLifespan : Z
}.

(** [type Database struct]: the connection pool is the [World] behind the
    handle, so the handle itself keeps the directory only. *)
Record Database : Type := mkDatabase {
  migrationDir : string
}.

(** The statements the package sends, and what a run leaves behind in the
    order it happened. *)
Inductive stmt : Type :=
| CreateTable
| SelectCurrent
| InsertBootstrap
| UpdateOpen (version : Z) (hash file : string) (last_run : Z)
| UpdateComplete (version : Z)
| Block (text : string).

Inductive event : Type :=
| EvOpen (dsn : string) (maxOpen maxIdle lifespan : Z)
| EvBegin (readOnly : bool)
| EvCommit
| EvRollback
| EvExec (s : stmt)
| EvWalk (root : string)
| EvReadFile (path : string)
| EvLogError (msg : string) (version : Z) (file : string) (err : error).

(** One call of the function handed to [filepath.Walk]: the path, whether
    it is a directory, and the error the walk reports for it, if any. *)
Record Entry : Type := mkEntry {
  path : string;
  IsDir : bool;
  walk_err : option string
}.

(** The file system: for a root, the calls [filepath.Walk] makes in
    lexical order; for a path, the content of the file if there is one. *)
Record FS : Type := mkFS {
  tree : string -> list Entry;
  content : string -> option string
}.

Section Model.

(** Everything in the database but the tracking table. *)
Variable Schema : Type.

(** The content digest: [fmt.Sprintf("%x", md5.Sum(bytes))]. *)
Variable md5hex : string -> string.

(** The database. [db_version] holds the rows of the table of that name
    (the table has no key, so it is a list); [schema] is the rest. *)
Record DB : Type := mkDB {
  db_version : list Migration;
  schema : Schema
}.

(** What the server does with one statement of a migration file: the new
    database, or the server's error message. *)
Variable sql_exec : string -> DB -> DB + string.

(** The world a run acts on. [faults] is what the environment does to the
    successive round trips (to the server, to the disk): [None] lets one
    through, [Some msg] makes it fail; past its end nothing fails. *)
Record World : Type := mkWorld {
  db : DB;
  fs : FS;
  faults : list (option string);
  clock : Z;
  log : list event
}.

Definition set_db (d : DB) (w : World) : World :=
  {| db := d; fs := fs w; faults := faults w; clock := clock w; log := log w |}.

Definition set_rows (rows : list Migration) (w : World) : World :=
  set_db {| db_version := rows; schema := schema (db w) |} w.

Definition set_faults (tape : list (option string)) (w : World) : World :=
  {| db := db w; fs := fs w; faults := tape; clock := clock w; log := log w |}.

(** Go code as a function of the world. *)
Definition M (A : Type) : Type := World -> A * World.

Definition ret {A : Type} (a : A) : M A := fun w => (a, w).

Definition bind {A B : Type} (c : M A) (k : A -> M B) : M B :=
  fun w => let (a, w') := c w in k a w'.

Notation "x <- c ;; k" := (bind c (fun x => k))
  (at level 61, c at next level, right associativity).
Notation "' p <- c ;; k" := (bind c (fun x => let 'p := x in k))
  (at level 61, p pattern, c at next level, right associativity).
Notation "c ;;; k" := (bind c (fun _ => k))
  (at level 61, right associativity).

Definition emit (e : event) : M unit :=
  fun w => (tt, {| db := db w; fs := fs w; faults := faults w; clock := clock w;
                   log := log w ++ [e] |}).

(** The next round trip: does the environment let it through? *)
Definition fault : M (option string) :=
  fun w =>
    match faults w with
    | [] => (None, w)
    | f :: rest =>
        (f, {| db := db w; fs := fs w; faults := rest; clock := clock w; log := log w |})
    end.

(** [time.Now()] (and the server's [NOW()]). *)
Definition Now : M Z :=
  fun w => (clock w, {| db := db w; fs := fs w; faults := faults w;
                        clock := clock w + 1; log := log w |}).

(** [ioutil.ReadFile]. *)
Definition ReadFile (name : string) : M (string * option error) :=
  emit (EvReadFile name) ;;;
  f <- fault ;;
  match f with
  | Some msg => ret ("", Some (ErrOS msg))
  | None =>
      fun w =>
        match content (fs w) name with
        | Some bytes => ((bytes, None), w)
        | None => (("", Some (ErrOS "no such file or directory")), w)
        end
  end.

(** *** Transactions: [exec], [View], [Update]

    [callback] is the closure; [a0] and the [A] it returns stand for the
    variables it captures and assigns.  A callback error rolls the
    database back, and so does a failed commit. *)
Definition exec {A : Type} (a0 : A) (callback : M (A * option error)) (readOnly : bool)
  : M (A * option error) :=
  emit (EvBegin readOnly) ;;;
  f <- fault ;;
  match f with
  | Some msg => ret (a0, Some (ErrDriver msg))
  | None =>
      fun w0 =>
        let (r, w1) := callback w0 in
        match snd r with
        | Some e =>
            let (_, w2) := emit EvRollback w1 in
            ((fst r, Some e), set_db (db w0) w2)
        | None =>
            let (f', w2) := (emit EvCommit ;;; fault) w1 in
            match f' with
            | Some msg => ((fst r, Some (ErrDriver msg)), set_db (db w0) w2)
            | None => ((fst r, None), w2)
            end
        end
  end.

Definition View {A : Type} (a0 : A) (callback : M (A * option error)) : M (A * option error) :=
  exec a0 callback true.

Definition Update (callback : M (option error)) : M (option error) :=
  r <- exec tt (e <- callback ;; ret (tt, e)) false ;;
  ret (snd r).

(** *** [migrations.go] *)

(** [tx.Get(&migration, "SELECT * FROM db_version WHERE id = '1' LIMIT 1")]:
    the first row whose id is 1, or [sql.ErrNoRows]. *)
Definition tx_Get_current (migration : Migration) : M (Migration * option error) :=
  emit (EvExec SelectCurrent) ;;;
  f <- fault ;;
  match f with
  | Some msg => ret (migration, Some (ErrDriver msg))
  | None =>
      fun w =>
        match find id_is_1 (db_version (db w)) with
        | Some r => ((r, None), w)
        | None => ((migration, Some ErrNoRows), w)
        end
  end.

Definition GetCurrentMigration : M (Migration * option error) :=
  let migration := zero_Migration in
  View migration
    ('(migration', err) <- tx_Get_current migration ;;
     match err with
     | Some e =>
         if is_ErrNoRows e then ret (migration', Some e)
         else ret (migration', Some (Errorf_fetch e))
     | None => ret (migration', None)
     end).

(** The function [DiffMigrations] hands to [filepath.Walk]; [migrations]
    is the slice it appends to. *)
Definition walk_fn (currentMigration : Migration) (e : Entry) (migrations : list Migration)
  : M (list Migration * option error) :=
  match walk_err e with
  | Some msg => ret (migrations, Some (ErrOS msg))
  | None =>
      if IsDir e then ret (migrations, None)
      else if negb (String.eqb (Go.Ext (path e)) ".sql") then ret (migrations, None)
      else
        let stem := Go.RemoveAll (Go.Base (path e)) ".sql" in
        match Go.ParseInt stem with
        | inr why => ret (migrations, Some (ErrNum stem why))
        | inl version =>
            '(bytes, err) <- ReadFile (path e) ;;
            match err with
            | Some e' => ret (migrations, Some e')
            | None =>
                let migration :=
                  {| ID := ""; File := path e; Hash := md5hex bytes;
                     Version := Go.uint64 version;
                     Complete := Go.uint64 version <=? Version currentMigration;
                     LastRun := 0 |} in
                if (Version migration =? Version currentMigration)
                   && negb (String.eqb (Hash migration) (Hash currentMigration))
                then ret (migrations, Some Errorf_modified)
                else ret (migrations ++ [migration], None)
            end
        end
  end.

(** [filepath.Walk]: the walk stops at the first error the function returns. *)
Fixpoint Walk {A : Type} (fn : Entry -> A -> M (A * option error)) (entries : list Entry) (a : A)
  : M (A * option error) :=
  match entries with
  | [] => ret (a, None)
  | e :: rest =>
      '(a', err) <- fn e a ;;
      match err with
      | Some x => ret (a', Some x)
      | None => Walk fn rest a'
      end
  end.

(** The slice is [None] where the Go function returns [nil] for it. *)
Definition DiffMigrations (d : Database) : M (option (list Migration) * option error) :=
  '(currentMigration, err) <- GetCurrentMigration ;;
  match err with
  | Some e => ret (None, Some e)
  | None =>
      if negb (Complete currentMigration)
      then ret (None, Some (Errorf_failed (Version currentMigration) (File currentMigration)))
      else
        emit (EvWalk (migrationDir d)) ;;;
        entries <- (fun w => (tree (fs w) (migrationDir d), w)) ;;
        '(migrations, err') <- Walk (walk_fn currentMigration) entries [] ;;
        ret (Some migrations, err')
  end.

(** [UPDATE db_version SET version = $1, hash = $2, file = $3, last_run = $4,
    complete = $5 WHERE id = '1'] on one row. *)
Definition update_open (migration : Migration) (now : Z) (r : Migration) : Migration :=
  if id_is_1 r
  then {| ID := ID r; File := File migration; Hash := Hash migration;
          Version := Version migration; Complete := false; LastRun := now |}
  else r.

(** [UPDATE db_version SET complete = $1 WHERE id = '1' AND version = $2]
    on one row. *)
Definition update_complete (version : Z) (r : Migration) : Migration :=
  if id_is_1 r && (Version r =? version)
  then {| ID := ID r; File := File r; Hash := Hash r; Version := Version r;
          Complete := true; LastRun := LastRun r |}
  else r.

(** The first [d.Update] of the loop body: the row takes the identity of
    the migration and [complete = false]. *)
Definition open_step (migration : Migration) : M (option error) :=
  Update
    (now <- Now ;;
     emit (EvExec (UpdateOpen (Version migration) (Hash migration) (File migration) now)) ;;;
     f <- fault ;;
     match f with
     | Some msg => ret (Some (Errorf_open (ErrDriver msg)))
     | None =>
         fun w =>
           (None, set_rows (map (update_open migration now) (db_version (db w))) w)
     end).

(** The second [d.Update]: [complete = true] where the id is 1 and the
    version is still the migration's.  The result of [tx.Exec] is dropped. *)
Definition complete_step (migration : Migration) : M (option error) :=
  Update
    (emit (EvExec (UpdateComplete (Version migration))) ;;;
     f <- fault ;;
     match f with
     | Some msg => ret (Some (ErrDriver msg))
     | None =>
         fun w =>
           (None,
            set_rows (map (update_complete (Version migration)) (db_version (db w))) w)
     end).

(** *** [postgres.go]: [ExecFile] *)

Fixpoint exec_blocks (i : nat) (blocks : list string) : M (option error) :=
  match blocks with
  | [] => ret None
  | block :: rest =>
      emit (EvExec (Block block)) ;;;
      f <- fault ;;
      match f with
      | Some msg => ret (Some (Errorf_block i (ErrDriver msg)))
      | None =>
          fun w =>
            match sql_exec block (db w) with
            | inr msg => (Some (Errorf_block i (ErrDriver msg)), w)
            | inl d' => exec_blocks (S i) rest (set_db d' w)
            end
      end
  end.

Definition ExecFile (filepath : string) : M (option error) :=
  '(bytes, err) <- ReadFile filepath ;;
  match err with
  | Some e => ret (Some e)
  | None =>
      let blocks := Go.Split bytes ";" in
      Update (exec_blocks O blocks)
  end.

(** *** [migrations.go]: [RunMigrations] *)

Definition add_Skipped (s : MigrationStatus) : MigrationStatus :=
  {| Applied := Applied s; Failed := Failed s; Skipped := Go.uint64 (Skipped s + 1);
     Latest := Latest s |}.

Definition add_Failed (s : MigrationStatus) : MigrationStatus :=
  {| Applied := Applied s; Failed := Go.uint64 (Failed s + 1); Skipped := Skipped s;
     Latest := Latest s |}.

Definition add_Applied (version : Z) (s : MigrationStatus) : MigrationStatus :=
  {| Applied := Go.uint64 (Applied s + 1); Failed := Failed s; Skipped := Skipped s;
     Latest := version |}.

Definition log_error (msg : string) (migration : Migration) (err : error) : M unit :=
  emit (EvLogError msg (Version migration) (File migration) err).

(** The [for ... range migrations] loop; a [return] inside it ends it. *)
Fixpoint run_loop (migrations : list Migration) (migrationStatus : MigrationStatus)
  : M (MigrationStatus * option error) :=
  match migrations with
  | [] => ret (migrationStatus, None)
  | migration :: rest =>
      if Complete migration then run_loop rest (add_Skipped migrationStatus)
      else
        err <- open_step migration ;;
        match err with
        | Some e =>
            log_error "failed to start migration" migration e ;;;
            ret (add_Failed migrationStatus, Some e)
        | None =>
            err <- ExecFile (File migration) ;;
            match err with
            | Some e =>
                log_error "failed to apply migration" migration e ;;;
                ret (add_Failed migrationStatus, Some e)
            | None =>
                err <- complete_step migration ;;
                match err with
                | Some e =>
                    log_error "failed to complete migration" migration e ;;;
                    ret (add_Failed migrationStatus, Some e)
                | None =>
                    run_loop rest (add_Applied (Version migration) migrationStatus)
                end
            end
        end
  end.

Definition RunMigrations (currentMigration : Migration) (migrations : list Migration)
  : M (MigrationStatus * option error) :=
  run_loop (sort_Sort migrations)
    {| Applied := 0; Failed := 0; Skipped := 0; Latest := Version currentMigration |}.

(** *** [postgres.go]: [Dial] *)

Definition dsn (conf : Config) : string :=
  let sslMode := if SSLDisabled conf then "disable" else "require" in
  ("user=" ++ User conf ++ " password=" ++ Password conf ++ " host=" ++ Host conf
   ++ " port=" ++ Port conf ++ " dbname=" ++ DatabaseName conf
   ++ " sslmode=" ++ sslMode)%string.

Definition or_default (x dflt : Z) : Z := if x =? 0 then dflt else x.

(** The row the bootstrap inserts: [('1', 0, '', '', NOW(), true)]. *)
Definition bootstrap_row (now : Z) : Migration :=
  {| ID := "1"; File := ""; Hash := ""; Version := 0; Complete := true; LastRun := now |}.

(** [db.Exec] outside a transaction: one round trip. *)
Definition db_Exec (s : stmt) (effect : M unit) : M (option error) :=
  emit (EvExec s) ;;;
  f <- fault ;;
  match f with
  | Some msg => ret (Some (ErrDriver msg))
  | None => effect ;;; ret None
  end.

Definition Dial (conf : Config) : M (option Database * option error) :=
  emit (EvOpen (dsn conf)
          (or_default (MaxOpenConns conf) 10)
          (or_default (MaxIdleConns conf) 10)
          (or_default (MaxConnLifespan conf) 60000000000)) ;;;
  f <- fault ;;
  match f with
  | Some msg => ret (None, Some (ErrDriver msg))
  | None =>
      err <- db_Exec CreateTable (ret tt) ;;
      match err with
      | Some e => ret (None, Some e)
      | None =>
          let d := {| migrationDir := MigrationDir conf |} in
          '(_, err) <- GetCurrentMigration ;;
          match err with
          | Some e =>
              if is_ErrNoRows e then
                err' <- db_Exec InsertBootstrap
                          (now <- Now ;;
                           fun w => (tt, set_rows (db_version (db w) ++ [bootstrap_row now]) w)) ;;
                match err' with
                | Some e' => ret (None, Some e')
                | None => ret (Some d, None)
                end
              else ret (None, Some e)
          | None => ret (Some d, None)
          end
      end
  end.

(** *** Vocabulary of the properties *)

(** The walk function, called on [e] in world [w], reaches the struct
    literal and builds the candidate [m], leaving world [w']. *)
Definition discovers (cur : Migration) (e : Entry) (w w' : World) (m : Migration)
  : Prop :=
  walk_err e = None /\ IsDir e = false /\ Go.Ext (path e) = ".sql" /\
  exists version bytes,
    Go.ParseInt (Go.RemoveAll (Go.Base (path e)) ".sql") = inl version /\
    ReadFile (path e) w = ((bytes, None), w') /\
    m = {| ID := ""; File := path e; Hash := md5hex bytes; Version := Go.uint64 version;
           Complete := Go.uint64 version <=? Version cur; LastRun := 0 |}.

End Model.

(** What holds of a candidate the walk function appends. *)
Definition accepted (currentMigration : Migration) (m : Migration) : Prop :=
  Complete m = (Version m <=? Version currentMigration) /\
  (Version m = Version currentMigration -> Hash m = Hash currentMigration).

(** The candidate the walk function builds for an entry of a disk, when
    it builds one. *)
Definition candidate_of (md5hex : string -> string) (cur : Migration) (disk : FS) (e : Entry)
  : list Migration :=
  if IsDir e then []
  else if negb (String.eqb (Go.Ext (path e)) ".sql") then []
  else match Go.ParseInt (Go.RemoveAll (Go.Base (path e)) ".sql"), content disk (path e) with
       | inl version, Some bytes =>
           [ {| ID := ""; File := path e; Hash := md5hex bytes;
                Version := Go.uint64 version;
                Complete := Go.uint64 version <=? Version cur; LastRun := 0 |} ]
       | _, _ => []
       end.

Definition candidates (md5hex : string -> string) (cur : Migration) (disk : FS)
           (entries : list Entry) : list Migration :=
  flat_map (candidate_of md5hex cur disk) entries.

(** An entry the walk function gets through when no round trip fails: the
    walk reports no error for it and, if it is a migration file, its name
    parses and its content can be read. *)
Definition readable (disk : FS) (e : Entry) : Prop :=
  walk_err e = None /\
  (IsDir e = false -> Go.Ext (path e) = ".sql" ->
   (exists version, Go.ParseInt (Go.RemoveAll (Go.Base (path e)) ".sql") = inl version) /\
   (exists bytes, content disk (path e) = Some bytes)).

(** A candidate classified again, against another tracked row. *)
Definition recast (cur : Migration) (c : Migration) : Migration :=
  {| ID := ID c; File := File c; Hash := Hash c; Version := Version c;
     Complete := Version c <=? Version cur; LastRun := LastRun c |}.

(** The last migration of the list that is not complete. *)
Fixpoint last_pending (migrations : list Migration) : option Migration :=
  match migrations with
  | [] => None
  | m :: rest =>
      match last_pending rest with
      | Some m' => Some m'
      | None => if Complete m then None else Some m
      end
  end.

(** What the two updates leave in the rows with id 1. *)
Definition stamped (m : Migration) (complete : bool) (row : Migration) : Prop :=
  Version row = Version m /\ Hash row = Hash m /\ Complete row = complete.

(** The table holds a row with id 1. *)
Definition has_tracked (rows : list Migration) : Prop :=
  exists r, In r rows /\ id_is_1 r = true.

(** ** Sample worlds *)

(** A stand-in for the digest, good enough to tell contents apart. *)
Definition sample_md5 (bytes : string) : string := ("md5:" ++ bytes)%string.

(** A toy server over a schema that is the list of the statements it ran:
    it rejects the statement [boom] and accepts every other one. *)
Definition sample_sql (s : string) (d : DB (list string)) : DB (list string) + string :=
  if String.eqb s "boom" then inr "syntax error at or near boom"
  else inl {| db_version := db_version d; schema := schema d ++ [s] |}.

(** A server on which the statement [move] does what another runner would:
    it takes the tracked row to version 99. *)
Definition intruding_sql (s : string) (d : DB (list string)) : DB (list string) + string :=
  if String.eqb s "move"
  then inl {| db_version :=
                map (fun r => {| ID := ID r; File := File r; Hash := Hash r; Version := 99;
                                 Complete := Complete r; LastRun := LastRun r |})
                    (db_version d);
              schema := schema d |}
  else sample_sql s d.

Definition file_entry (p : string) : Entry := {| path := p; IsDir := false; walk_err := None |}.

(** A directory [m] with three migrations and a note; [second] is the
    content of the second migration. *)
Definition sample_fs (second : string) : FS :=
  {| tree := fun root =>
       if String.eqb root "m"
       then [ {| path := "m"; IsDir := true; walk_err := None |};
              file_entry "m/1.sql"; file_entry "m/2.sql"; file_entry "m/3.sql";
              file_entry "m/notes.txt" ]
       else [ {| path := root; IsDir := false; walk_err := Some "no such file or directory" |} ];
     content := fun p =>
       if String.eqb p "m/1.sql" then Some "create table a;create table b"
       else if String.eqb p "m/2.sql" then Some second
       else if String.eqb p "m/3.sql" then Some "create index i"
       else if String.eqb p "m/notes.txt" then Some "not a migration"
       else None |}.

(** A directory with one file whose name carries a sign. *)
Definition signed_fs : FS :=
  {| tree := fun _ => [ {| path := "m"; IsDir := true; walk_err := None |};
                        file_entry "m/-5.sql" ];
     content := fun _ => Some "create table t" |}.

Definition sample_world (rows : list Migration) (disk : FS) : World (list string) :=
  {| db := {| db_version := rows; schema := [] |}; fs := disk; faults := []; clock := 100;
     log := [] |}.

Definition sample_dir : Database := {| migrationDir := "m" |}.

Definition pending (version : Z) (file bytes : string) : Migration :=
  {| ID := ""; File := file; Hash := sample_md5 bytes; Version := version;
     Complete := false; LastRun := 0 |}.

Definition sample_m1 : Migration := pending 1 "m/1.sql" "create table a;create table b".
Definition sample_m2 (second : string) : Migration := pending 2 "m/2.sql" second.
Definition sample_m3 : Migration := pending 3 "m/3.sql" "create index i".

(** The worlds of a run in which the second migration fails in its SQL. *)
Definition ff_w0 : World (list string) := sample_world [bootstrap_row 0] (sample_fs "boom").
Definition ff_w1 : World (list string) := snd (open_step sample_m1 ff_w0).
Definition ff_w2 : World (list string) := snd (ExecFile sample_sql "m/1.sql" ff_w1).
Definition ff_w3 : World (list string) := snd (complete_step sample_m1 ff_w2).
Definition ff_w4 : World (list string) := snd (open_step (sample_m2 "boom") ff_w3).
Definition ff_w5 : World (list string) := snd (ExecFile sample_sql "m/2.sql" ff_w4).
Definition ff_err : error :=
  Errorf_block 0 (ErrDriver "syntax error at or near boom").

(** A tracked row at a given version. *)
Definition tracked_row (version : Z) (bytes : string) (complete : bool) : Migration :=
  {| ID := "1"; File := "m/2.sql"; Hash := sample_md5 bytes; Version := version;
     Complete := complete; LastRun := 7 |}.

(** The second migration was applied with the content [old]; the file now
    holds [new]. *)
Definition drift_w : World (list string) :=
  sample_world [tracked_row 2 "old" true] (sample_fs "new").
Definition drift_w1 : World (list string) := snd (GetCurrentMigration drift_w).
Definition drift_w2 : World (list string) :=
  snd (Walk (walk_fn sample_md5 (tracked_row 2 "old" true))
         [ {| path := "m"; IsDir := true; walk_err := None |}; file_entry "m/1.sql" ] []
         (snd (emit (EvWalk "m") drift_w1))).
Definition drift_w3 : World (list string) := snd (ReadFile "m/2.sql" drift_w2).
Definition drift_m1 : Migration :=
  {| ID := ""; File := "m/1.sql"; Hash := sample_md5 "create table a;create table b";
     Version := 1; Complete := true; LastRun := 0 |}.
Definition drift_m2 : Migration :=
  {| ID := ""; File := "m/2.sql"; Hash := sample_md5 "new"; Version := 2;
     Complete := true; LastRun := 0 |}.

(** The second migration was left half-way. *)
Definition stuck_w : World (list string) :=
  sample_world [tracked_row 2 "alter table a" false] (sample_fs "alter table a").

(** Two passes over the same directory from the bootstrap row. *)
Definition twice_w0 : World (list string) :=
  sample_world [bootstrap_row 0] (sample_fs "alter table a").
Definition twice_w1 : World (list string) := snd (DiffMigrations sample_md5 sample_dir twice_w0).
Definition twice_migrations : list Migration :=
  [sample_m1; sample_m2 "alter table a"; sample_m3].
Definition twice_w2 : World (list string) :=
  snd (RunMigrations sample_sql (bootstrap_row 0) twice_migrations twice_w1).
Definition twice_w3 : World (list string) := snd (DiffMigrations sample_md5 sample_dir twice_w2).
Definition twice_again : list Migration :=
  map (fun m => {| ID := ID m; File := File m; Hash := Hash m; Version := Version m;
                   Complete := true; LastRun := LastRun m |}) twice_migrations.

(** The tracked row sits at version 7 when the step of version 2 completes. *)
Definition moved_w : World (list string) :=
  sample_world [tracked_row 7 "other" false] (sample_fs "alter table a").

(** A migration whose script moves the tracked row under the runner. *)
Definition moving_fs : FS :=
  {| tree := fun _ => [file_entry "m/2.sql"];
     content := fun _ => Some "move" |}.
Definition moving_w : World (list string) := sample_world [bootstrap_row 0] moving_fs.

(** A directory in which two files carry the same version, and two passes
    over it from the bootstrap row. *)
Definition twin_fs : FS :=
  {| tree := fun _ => [ {| path := "m"; IsDir := true; walk_err := None |};
                        file_entry "m/01.sql"; file_entry "m/1.sql" ];
     content := fun p =>
       if String.eqb p "m/01.sql" then Some "create table a"
       else if String.eqb p "m/1.sql" then Some "create table b"
       else None |}.
Definition twin_w0 : World (list string) := sample_world [bootstrap_row 0] twin_fs.
Definition twin_w1 : World (list string) := snd (DiffMigrations sample_md5 sample_dir twin_w0).
Definition twin_migrations : list Migration :=
  [pending 1 "m/01.sql" "create table a"; pending 1 "m/1.sql" "create table b"].
Definition twin_w2 : World (list string) :=
  snd (RunMigrations sample_sql (bootstrap_row 0) twin_migrations twin_w1).

(** ** Vocabulary of the further properties *)

(** The statements of a file run one after the other on a database: the
    database they leave, or the error of the first one the server rejects. *)
Fixpoint run_blocks (Schema : Type) (sql_exec : string -> DB Schema -> DB Schema + string)
         (i : nat) (blocks : list string) (d : DB Schema) : DB Schema + error :=
  match blocks with
  | [] => inl d
  | block :: rest =>
      match sql_exec block d with
      | inr msg => inr (Errorf_block i (ErrDriver msg))
      | inl d' => run_blocks sql_exec (S i) rest d'
      end
  end.

(** What a run may do to a row: keep its id, and keep it whole when its id
    is not 1. *)
Definition row_kept (r r' : Migration) : Prop :=
  ID r' = ID r /\ (id_is_1 r = false -> r' = r).

(** The entries the walk function takes for migration files. *)
Definition is_migration_file (e : Entry) : bool :=
  negb (IsDir e) && String.eqb (Go.Ext (path e)) ".sql".

(** How many migrations of a slice are complete, and how many are not. *)
Definition count_complete (migrations : list Migration) : Z :=
  Z.of_nat (List.length (filter Complete migrations)).

Definition count_pending (migrations : list Migration) : Z :=
  Z.of_nat (List.length (filter (fun m => negb (Complete m)) migrations)).

(** A table with another row beside the tracked one. *)
Definition other_row : Migration :=
  {| ID := "2"; File := "x"; Hash := "h"; Version := 41; Complete := false; LastRun := 3 |}.
Definition crowded_world : World (list string) :=
  sample_world [other_row; bootstrap_row 0] (sample_fs "alter table a").

(** A table without the tracked row. *)
Definition rowless_world : World (list string) :=
  sample_world [other_row] (sample_fs "alter table a").

(** A directory with a file whose name is no number. *)
Definition misnamed_fs : FS :=
  {| tree := fun _ => [ {| path := "m"; IsDir := true; walk_err := None |};
                        file_entry "m/1.sql"; file_entry "m/two.sql";
                        file_entry "m/3.sql" ];
     content := fun _ => Some "create table t" |}.
Definition misnamed_world : World (list string) :=
  sample_world [bootstrap_row 0] misnamed_fs.

Definition misnamed_m1 : Migration := pending 1 "m/1.sql" "create table t".
Definition misnamed_w1 : World (list string) := snd (GetCurrentMigration misnamed_world).
Definition misnamed_w2 : World (list string) :=
  snd (Walk (walk_fn sample_md5 (bootstrap_row 0))
         [ {| path := "m"; IsDir := true; walk_err := None |}; file_entry "m/1.sql" ] []
         (snd (emit (EvWalk "m") misnamed_w1))).

(** A fresh database: the table is empty. *)
Definition fresh_world : World (list string) := sample_world [] (sample_fs "alter table a").
Definition sample_conf : Config :=
  {| User := "app"; Password := "secret"; Host := "localhost"; Port := "5432";
     DatabaseName := "app"; MigrationDir := "m"; SSLDisabled := true;
     MaxIdleConns := 0; MaxOpenConns := 0; MaxConnLifespan := 0 |}.

(** A world whose connection fails at the third round trip. *)
Definition flaky_world : World (list string) :=
  set_faults [None; None; Some "connection reset"]
    (sample_world [bootstrap_row 0] (sample_fs "alter table a")).


(** ** Proof automation *)

(** Unfolds the operations down to the world they act on. *)
Ltac unfold_ops :=
  unfold GetCurrentMigration, open_step, complete_step, ExecFile, ReadFile, View, Update,
    exec, tx_Get_current, log_error, db_Exec, bind, ret, emit, fault, Now, set_rows, set_db.

(** Case analysis on what the environment does to the next round trips. *)
Ltac tape_cases :=
  repeat match goal with
         | |- context [match ?l with [] => _ | _ :: _ => _ end] =>
             is_var l; destruct l as [|[?|] ?]; simpl
         end.

(** Splits a world into its components and runs the operation on them. *)
Ltac open_world w :=
  destruct w as [[?rows ?sch] ?disk ?tape ?now ?lg]; cbv zeta; unfold_ops; simpl.

(** * Properties *)

(** ** Ordering: [sort.Sort] over a [MigrationSet] *)

Definition le_version (a b : Migration) : Prop := Version a <= Version b.
Definition lt_version (a b : Migration) : Prop := Version a < Version b.
Definition ge_version (a b : Migration) : Prop := Version b <= Version a.

Lemma at_index_middle (pre post : list Migration) (x : Migration) :
  at_index (pre ++ x :: post) (List.length pre) = x.
Proof.
  unfold at_index. induction pre as [|p pre IH]; simpl; [reflexivity | exact IH].
Qed.

Lemma store_middle (pre post : list Migration) (x m : Migration) :
  store (pre ++ x :: post) (List.length pre) m = pre ++ m :: post.
Proof.
  induction pre as [|p pre IH]; simpl; [reflexivity | now rewrite IH].
Qed.

Lemma Swap_adjacent (pre post : list Migration) (y x : Migration) :
  Swap (pre ++ y :: x :: post) (S (List.length pre)) (List.length pre)
  = pre ++ x :: y :: post.
Proof.
  unfold Swap.
  rewrite at_index_middle.
  replace (pre ++ y :: x :: post) with ((pre ++ [y]) ++ x :: post)
    by (rewrite <- app_assoc; reflexivity).
  replace (S (List.length pre)) with (List.length (pre ++ [y]))
    by (rewrite length_app; simpl; lia).
  rewrite at_index_middle, store_middle.
  rewrite <- app_assoc. simpl.
  apply store_middle.
Qed.

Lemma Less_adjacent (pre post : list Migration) (y x : Migration) :
  Less (pre ++ y :: x :: post) (S (List.length pre)) (List.length pre)
  = (Version x <? Version y).
Proof.
  unfold Less. rewrite at_index_middle.
  replace (pre ++ y :: x :: post) with ((pre ++ [y]) ++ x :: post)
    by (rewrite <- app_assoc; reflexivity).
  replace (S (List.length pre)) with (List.length (pre ++ [y]))
    by (rewrite length_app; simpl; lia).
  now rewrite at_index_middle.
Qed.

Lemma length_insert_desc (x : Migration) (r : list Migration) :
  List.length (insert_desc x r) = S (List.length r).
Proof.
  induction r as [|y r IH]; simpl; [reflexivity|].
  destruct (Version x <? Version y); simpl; [now rewrite IH | reflexivity].
Qed.

(** The inner loop moves the element at [j] left past the larger ones. *)
Lemma sink_insert_desc (rpre : list Migration) :
  forall (x : Migration) (post : list Migration),
    sink (List.length rpre) (rev rpre ++ x :: post) = rev (insert_desc x rpre) ++ post.
Proof.
  induction rpre as [|y r IH]; intros x post; [reflexivity|].
  cbn [List.length sink rev insert_desc].
  rewrite <- app_assoc. cbn [app].
  pose proof (length_rev r) as Hlen.
  rewrite <- Hlen, Less_adjacent.
  destruct (Version x <? Version y).
  - rewrite Swap_adjacent, Hlen, IH.
    cbn [rev]. now rewrite <- app_assoc.
  - cbn [rev]. now rewrite <- !app_assoc.
Qed.

Lemma outer_loop_insert_desc (post : list Migration) :
  forall rpre : list Migration,
    fold_left (fun acc i => sink i acc) (seq (List.length rpre) (List.length post))
      (rev rpre ++ post)
    = rev (fold_left (fun racc x => insert_desc x racc) post rpre).
Proof.
  induction post as [|x post IH]; intros rpre.
  - simpl. now rewrite app_nil_r.
  - cbn [List.length seq fold_left].
    rewrite sink_insert_desc, <- (length_insert_desc x rpre).
    apply IH.
Qed.

(** The index-level sort computes the insertion sort. *)
Lemma sort_Sort_insertion_sort (s : MigrationSet) : sort_Sort s = insertion_sort s.
Proof.
  unfold sort_Sort, insertion_sort, Len.
  destruct s as [|x s]; [reflexivity|].
  replace (List.length (x :: s) - 1)%nat with (List.length s) by (simpl; lia).
  exact (outer_loop_insert_desc s [x]).
Qed.

Lemma insert_desc_perm (x : Migration) (r : list Migration) :
  Permutation (x :: r) (insert_desc x r).
Proof.
  induction r as [|y r IH]; simpl; [apply Permutation_refl|].
  destruct (Version x <? Version y).
  - eapply perm_trans; [apply perm_swap | apply perm_skip, IH].
  - apply Permutation_refl.
Qed.

Lemma fold_insert_desc_perm (s : list Migration) :
  forall racc, Permutation (s ++ racc) (fold_left (fun racc x => insert_desc x racc) s racc).
Proof.
  induction s as [|x s IH]; intros racc; simpl; [apply Permutation_refl|].
  eapply perm_trans; [| apply IH].
  eapply perm_trans; [apply Permutation_middle|].
  apply Permutation_app_head, insert_desc_perm.
Qed.

Lemma sort_Sort_perm (s : MigrationSet) : Permutation s (sort_Sort s).
Proof.
  rewrite sort_Sort_insertion_sort. unfold insertion_sort.
  eapply perm_trans; [| apply Permutation_rev].
  rewrite <- (app_nil_r s) at 1. apply fold_insert_desc_perm.
Qed.

Lemma sort_Sort_length (s : MigrationSet) : List.length (sort_Sort s) = List.length s.
Proof. symmetry. apply Permutation_length, sort_Sort_perm. Qed.

Lemma insert_desc_sorted (x : Migration) (r : list Migration) :
  StronglySorted ge_version r -> StronglySorted ge_version (insert_desc x r).
Proof.
  induction 1 as [|y r Hr IH Hy]; simpl.
  - repeat constructor.
  - destruct (Z.ltb_spec (Version x) (Version y)) as [Hlt|Hge].
    + constructor; [exact IH|].
      eapply Permutation_Forall; [apply insert_desc_perm|].
      constructor; [unfold ge_version; lia | exact Hy].
    + constructor; [constructor; assumption|].
      constructor; [exact Hge|].
      eapply Forall_impl; [|exact Hy].
      unfold ge_version. intros a Ha. lia.
Qed.

Lemma StronglySorted_rev_ge (r : list Migration) :
  StronglySorted ge_version r -> StronglySorted le_version (rev r).
Proof.
  induction 1 as [|y r Hr IH Hy]; simpl; [constructor|].
  assert (Forall (ge_version y) (rev r)) as Hl by now apply Forall_rev.
  revert IH Hl. generalize (rev r). clear.
  intros l. induction 1 as [|a l Hs IH Ha]; intros Hl; simpl.
  - repeat constructor.
  - inversion Hl; subst. constructor; [now apply IH|].
    apply Forall_app. split; [exact Ha | repeat constructor; assumption].
Qed.

Lemma sort_Sort_sorted (s : MigrationSet) : StronglySorted le_version (sort_Sort s).
Proof.
  rewrite sort_Sort_insertion_sort. unfold insertion_sort.
  apply StronglySorted_rev_ge.
  generalize (SSorted_nil ge_version).
  generalize (@nil Migration).
  induction s as [|x s IH]; intros racc Hacc; simpl; [exact Hacc|].
  apply IH, insert_desc_sorted, Hacc.
Qed.

Lemma sorted_distinct_strict (l : list Migration) :
  StronglySorted le_version l -> NoDup (map Version l) -> StronglySorted lt_version l.
Proof.
  induction 1 as [|a l Hs IH Ha]; intros Hnd; [constructor|].
  simpl in Hnd. inversion Hnd as [|v vs Hnotin Hnd']; subst.
  constructor; [now apply IH|].
  rewrite Forall_forall in *. intros b Hb.
  specialize (Ha b Hb). unfold le_version in Ha. unfold lt_version.
  assert (Version a <> Version b).
  { intros Heq. apply Hnotin. rewrite Heq. now apply in_map. }
  lia.
Qed.

(** Two strictly ascending arrangements of the same records are equal. *)
Lemma strictly_sorted_unique (l1 : list Migration) :
  forall l2, StronglySorted lt_version l1 -> StronglySorted lt_version l2 ->
             Permutation l1 l2 -> l1 = l2.
Proof.
  induction l1 as [|a l1 IH]; intros l2 H1 H2 Hp.
  - now apply Permutation_nil in Hp.
  - destruct l2 as [|b l2]; [now apply Permutation_sym, Permutation_nil in Hp|].
    inversion H1 as [|? ? H1' Ha]; subst. inversion H2 as [|? ? H2' Hb]; subst.
    assert (a = b) as ->.
    { assert (In a (b :: l2)) as Hain
        by (eapply Permutation_in; [exact Hp | now left]).
      assert (In b (a :: l1)) as Hbin
        by (eapply Permutation_in; [apply Permutation_sym, Hp | now left]).
      destruct Hain as [->|Hain]; [reflexivity|].
      destruct Hbin as [->|Hbin]; [reflexivity|].
      rewrite Forall_forall in Ha, Hb.
      specialize (Ha b Hbin). specialize (Hb a Hain).
      unfold lt_version in *. lia. }
    f_equal. apply IH; try assumption.
    eapply Permutation_cons_inv, Hp.
Qed.

Lemma sort_Sort_strict (s : MigrationSet) :
  NoDup (map Version s) -> StronglySorted lt_version (sort_Sort s).
Proof.
  intros Hnd. apply sorted_distinct_strict; [apply sort_Sort_sorted|].
  eapply Permutation_NoDup; [| exact Hnd].
  apply Permutation_map, sort_Sort_perm.
Qed.

Lemma sort_Sort_permutation_invariant (l l' : MigrationSet) :
  NoDup (map Version l) -> Permutation l l' -> sort_Sort l' = sort_Sort l.
Proof.
  intros Hnd Hp.
  assert (NoDup (map Version l')) as Hnd'
    by (eapply Permutation_NoDup; [apply Permutation_map, Hp | exact Hnd]).
  apply strictly_sorted_unique; try now apply sort_Sort_strict.
  eapply perm_trans; [apply Permutation_sym, sort_Sort_perm|].
  eapply perm_trans; [apply Permutation_sym, Hp | apply sort_Sort_perm].
Qed.

(** With distinct versions there is one sorted arrangement, so any sort
    that honours the contract of [sort.Sort] returns what [sort_Sort] does. *)
Lemma sort_Sort_canonical (l l' : MigrationSet) :
  NoDup (map Version l) -> Permutation l l' -> StronglySorted le_version l' ->
  l' = sort_Sort l.
Proof.
  intros Hnd Hp Hs.
  assert (NoDup (map Version l')) as Hnd'
    by (eapply Permutation_NoDup; [apply Permutation_map, Hp | exact Hnd]).
  apply strictly_sorted_unique.
  - now apply sorted_distinct_strict.
  - now apply sort_Sort_strict.
  - eapply perm_trans; [apply Permutation_sym, Hp | apply sort_Sort_perm].
Qed.

(** A slice already in ascending order is left as it is. *)
Lemma insert_desc_top (x : Migration) (r : list Migration) :
  Forall (fun y => Version y <= Version x) r -> insert_desc x r = x :: r.
Proof.
  destruct r as [|y r]; [reflexivity|].
  intros H. inversion H; subst. simpl.
  destruct (Z.ltb_spec (Version x) (Version y)); [lia | reflexivity].
Qed.

Lemma sort_Sort_sorted_id (s : MigrationSet) :
  StronglySorted le_version s -> sort_Sort s = s.
Proof.
  intros Hs. rewrite sort_Sort_insertion_sort. unfold insertion_sort.
  enough (forall racc,
             Forall (fun y => Forall (le_version y) s) racc ->
             fold_left (fun racc x => insert_desc x racc) s racc = rev s ++ racc) as E.
  { rewrite E by constructor. now rewrite app_nil_r, rev_involutive. }
  induction Hs as [|a s Hs IH Ha]; intros racc Hacc; [reflexivity|].
  cbn [fold_left rev]. rewrite insert_desc_top.
  - rewrite IH; [now rewrite <- app_assoc|].
    constructor; [exact Ha|].
    eapply Forall_impl; [|exact Hacc].
    intros y Hy. now inversion Hy.
  - eapply Forall_impl; [|exact Hacc].
    intros y Hy. now inversion Hy.
Qed.

(** ** The runner's counters *)

Section Properties.

Variable Schema : Type.
Variable md5hex : string -> string.
Variable sql_exec : string -> DB Schema -> DB Schema + string.

Set Default Proof Using "Type".

Lemma uint64_small (x : Z) : 0 <= x < 2 ^ 64 -> Go.uint64 x = x.
Proof. intros H. unfold Go.uint64. now apply Z.mod_small. Qed.

(** What the loop does to the counters, from any status that has not
    failed yet and leaves room in the counters for the migrations to come. *)
Lemma run_loop_counts (migrations : list Migration) :
  forall (st : MigrationStatus) (w : World Schema),
    Failed st = 0 -> 0 <= Applied st -> 0 <= Skipped st ->
    Applied st + Skipped st + Z.of_nat (List.length migrations) < 2 ^ 64 ->
    let r := run_loop sql_exec migrations st w in
    let st' := fst (fst r) in
    0 <= Applied st' /\ 0 <= Skipped st' /\
    match snd (fst r) with
    | None =>
        Failed st' = 0 /\
        Applied st' + Skipped st'
        = Applied st + Skipped st + Z.of_nat (List.length migrations)
    | Some _ =>
        Failed st' = 1 /\
        Applied st' + Skipped st' + 1
        <= Applied st + Skipped st + Z.of_nat (List.length migrations)
    end.
Proof.
  induction migrations as [|m rest IH]; intros st w HF HA HS Hroom.
  - simpl. rewrite HF. simpl in Hroom. repeat split; lia.
  - assert (Z.of_nat (List.length (m :: rest)) = Z.of_nat (List.length rest) + 1) as Hlen
      by (simpl List.length; lia).
    rewrite Hlen in *.
    assert (forall st1 w1,
               Failed st1 = 0 -> 0 <= Applied st1 -> 0 <= Skipped st1 ->
               Applied st1 + Skipped st1 = Applied st + Skipped st + 1 ->
               let r := run_loop sql_exec rest st1 w1 in
               let st' := fst (fst r) in
               0 <= Applied st' /\ 0 <= Skipped st' /\
               match snd (fst r) with
               | None =>
                   Failed st' = 0 /\
                   Applied st' + Skipped st'
                   = Applied st + Skipped st + (Z.of_nat (List.length rest) + 1)
               | Some _ =>
                   Failed st' = 1 /\
                   Applied st' + Skipped st' + 1
                   <= Applied st + Skipped st + (Z.of_nat (List.length rest) + 1)
               end) as Hnext.
    { intros st1 w1 HF1 HA1 HS1 Hsum.
      specialize (IH st1 w1 HF1 HA1 HS1). cbv zeta in IH |- *.
      destruct IH as (? & ? & IH); [lia|].
      repeat split; try assumption.
      destruct (snd (fst (run_loop sql_exec rest st1 w1))); intuition lia. }
    assert (let st' := add_Failed st in
               0 <= Applied st' /\ 0 <= Skipped st' /\
               Failed st' = 1 /\
               Applied st' + Skipped st' + 1
               <= Applied st + Skipped st + (Z.of_nat (List.length rest) + 1)) as Hfail.
    { unfold add_Failed. simpl. rewrite HF.
      rewrite uint64_small by lia. repeat split; lia. }
    cbn [run_loop]. destruct (Complete m).
    + apply Hnext; unfold add_Skipped; simpl; try assumption;
        rewrite uint64_small; lia.
    + unfold bind.
      destruct (open_step m w) as [[e|] w1].
      { destruct (log_error _ m e w1) as [[] w1']. simpl. now apply Hfail. }
      destruct (ExecFile sql_exec (File m) w1) as [[e|] w2].
      { destruct (log_error _ m e w2) as [[] w2']. simpl. now apply Hfail. }
      destruct (complete_step m w2) as [[e|] w3].
      { destruct (log_error _ m e w3) as [[] w3']. simpl. now apply Hfail. }
      apply Hnext; unfold add_Applied; simpl; try assumption;
        rewrite uint64_small; lia.
Qed.

(** C10. Whatever the database, the disk and the connection do: the status
    [RunMigrations] returns has [Failed <= 1]; with a nil error [Failed = 0]
    and [Applied + Skipped] is the number of migrations passed in; with an
    error [Failed = 1] and [Applied + Skipped + Failed] is at most that
    number.  The number of migrations is the length of a Go slice, which
    fits an [int]. *)
Theorem RunMigrations_status_counts
  (currentMigration : Migration) (migrations : list Migration) (w : World Schema) :
  Z.of_nat (List.length migrations) <= Go.MaxInt ->
  let r := RunMigrations sql_exec currentMigration migrations w in
  let st := fst (fst r) in
  let err := snd (fst r) in
  Failed st <= 1 /\
  (err = None ->
   Failed st = 0 /\ Applied st + Skipped st = Z.of_nat (List.length migrations)) /\
  (err <> None ->
   Failed st = 1 /\
   Applied st + Skipped st + Failed st <= Z.of_nat (List.length migrations)).
Proof.
  intros Hlen. unfold RunMigrations. cbv zeta.
  pose proof (run_loop_counts (sort_Sort migrations)
                {| Applied := 0; Failed := 0; Skipped := 0;
                   Latest := Version currentMigration |} w) as H.
  cbv zeta in H. rewrite sort_Sort_length in H. simpl in H.
  unfold Go.MaxInt in Hlen.
  destruct H as (HA & HS & H); try lia.
  destruct (snd (fst (run_loop sql_exec (sort_Sort migrations) _ w))) as [e|].
  - destruct H as [HF Hsum]. repeat split; try lia; intros; try congruence; lia.
  - destruct H as [HF Hsum]. repeat split; try lia; intros; try congruence; lia.
Qed.


(** ** What each operation does to the world *)

Lemma GetCurrentMigration_inv (w : World Schema) :
  let r := GetCurrentMigration w in
  db (snd r) = db w /\ fs (snd r) = fs w /\ clock (snd r) = clock w /\
  match snd (fst r) with
  | None => find id_is_1 (db_version (db w)) = Some (fst (fst r))
  | Some e => e = ErrNoRows -> find id_is_1 (db_version (db w)) = None
  end.
Proof.
  open_world w.
  tape_cases; destruct (find id_is_1 rows) eqn:E; simpl; tape_cases;
    repeat split; congruence.
Qed.

Lemma GetCurrentMigration_quiet (w : World Schema) :
  faults w = [] ->
  fst (GetCurrentMigration w)
  = match find id_is_1 (db_version (db w)) with
    | Some r => (r, None)
    | None => (zero_Migration, Some ErrNoRows)
    end.
Proof.
  open_world w. intros ->. simpl.
  destruct (find id_is_1 rows); reflexivity.
Qed.

Lemma open_step_inv (m : Migration) (w : World Schema) :
  let r := open_step m w in
  fs (snd r) = fs w /\
  match fst r with
  | None =>
      db (snd r)
      = {| db_version := map (update_open m (clock w)) (db_version (db w));
           schema := schema (db w) |}
  | Some _ => db (snd r) = db w
  end.
Proof.
  open_world w. tape_cases; split; reflexivity.
Qed.

Lemma complete_step_inv (m : Migration) (w : World Schema) :
  let r := complete_step m w in
  fs (snd r) = fs w /\
  match fst r with
  | None =>
      db (snd r)
      = {| db_version := map (update_complete (Version m)) (db_version (db w));
           schema := schema (db w) |}
  | Some e => db (snd r) = db w /\ exists msg, e = ErrDriver msg /\ In (Some msg) (faults w)
  end.
Proof.
  open_world w. tape_cases; repeat split;
    try (eexists; split; [reflexivity | simpl; auto]).
Qed.

Lemma exec_blocks_inv (blocks : list string) :
  forall (i : nat) (w : World Schema),
    let r := exec_blocks sql_exec i blocks w in
    fs (snd r) = fs w /\
    ((forall s d d', sql_exec s d = inl d' -> db_version d' = db_version d) ->
     db_version (db (snd r)) = db_version (db w)).
Proof.
  induction blocks as [|b blocks IH]; intros i w; cbv zeta; [now split|].
  cbn [exec_blocks]. open_world w.
  tape_cases; try (split; reflexivity).
  all: destruct (sql_exec b _) as [d'|msg'] eqn:E; simpl; try (split; reflexivity).
  all: match goal with |- context [exec_blocks _ _ _ ?w'] => destruct (IH (S i) w') as [Hfs Hdb] end.
  all: split; [rewrite Hfs; reflexivity|].
  all: intros Hsql; rewrite (Hdb Hsql); simpl; apply (Hsql _ _ _ E).
Qed.

Lemma ExecFile_inv (name : string) (w : World Schema) :
  let r := ExecFile sql_exec name w in
  fs (snd r) = fs w /\
  match fst r with
  | None =>
      (forall s d d', sql_exec s d = inl d' -> db_version d' = db_version d) ->
      db_version (db (snd r)) = db_version (db w)
  | Some _ => db (snd r) = db w
  end.
Proof.
  open_world w.
  tape_cases; try (split; reflexivity).
  all: destruct (content disk name) as [bytes|]; simpl; try (split; reflexivity).
  all: tape_cases; try (split; reflexivity).
  all: match goal with
       | |- context [exec_blocks _ ?i ?bs ?w'] =>
           pose proof (exec_blocks_inv bs i w') as H; cbv zeta in H;
           destruct (exec_blocks sql_exec i bs w') as [[e|] w1]; simpl in *
       end.
  all: destruct H as [Hfs Hdb];
    destruct w1 as [[rows1 sch1] disk1 tape1 now1 lg1]; simpl in *;
    tape_cases; split; auto.
Qed.

Lemma find_map_update_open (m : Migration) (now : Z) (rows : list Migration) :
  find id_is_1 (map (update_open m now) rows)
  = option_map (update_open m now) (find id_is_1 rows).
Proof.
  induction rows as [|r rows IH]; [reflexivity|].
  simpl. unfold update_open at 1 3.
  destruct (id_is_1 r) eqn:E; simpl.
  - unfold id_is_1 in *. simpl. now rewrite E.
  - now rewrite E.
Qed.

(** ** Fail-fast *)

(** C1. Three pending migrations in ascending order; the first is applied,
    the second opens its step and then fails while its SQL runs.  The run
    returns that error with [Applied = 1], [Failed = 1], [Skipped = 0]; the
    world it leaves is the one the failed SQL left plus the log line, so
    nothing was sent for the third migration; every row with id 1 carries
    the second migration's version with [complete = false], and the
    tracked row is the one the second step opened. *)
Theorem RunMigrations_fail_fast
  (currentMigration m1 m2 m3 : Migration) (w0 w1 w2 w3 w4 w5 : World Schema) (e : error) :
  Version m1 <= Version m2 -> Version m2 <= Version m3 ->
  Complete m1 = false -> Complete m2 = false -> Complete m3 = false ->
  open_step m1 w0 = (None, w1) ->
  ExecFile sql_exec (File m1) w1 = (None, w2) ->
  complete_step m1 w2 = (None, w3) ->
  open_step m2 w3 = (None, w4) ->
  ExecFile sql_exec (File m2) w4 = (Some e, w5) ->
  let r := RunMigrations sql_exec currentMigration [m1; m2; m3] w0 in
  fst r = ({| Applied := 1; Failed := 1; Skipped := 0; Latest := Version m1 |}, Some e) /\
  snd r = snd (emit (EvLogError "failed to apply migration" (Version m2) (File m2) e) w5) /\
  (forall row, In row (db_version (db (snd r))) -> id_is_1 row = true ->
               Version row = Version m2 /\ Complete row = false) /\
  find id_is_1 (db_version (db (snd r)))
  = option_map (update_open m2 (clock w3)) (find id_is_1 (db_version (db w3))).
Proof.
  intros H12 H23 C1 C2 C3 O1 X1 K1 O2 X2.
  assert (RunMigrations sql_exec currentMigration [m1; m2; m3] w0
          = ({| Applied := 1; Failed := 1; Skipped := 0; Latest := Version m1 |}, Some e,
             snd (emit (EvLogError "failed to apply migration" (Version m2) (File m2) e) w5)))
    as R.
  { unfold RunMigrations.
    rewrite sort_Sort_sorted_id.
    2:{ unfold le_version. repeat constructor; lia. }
    cbn [run_loop]. rewrite C1, C2. unfold bind at 1. rewrite O1.
    unfold bind at 1. rewrite X1. unfold bind at 1. rewrite K1.
    unfold bind at 1. rewrite O2. unfold bind at 1. rewrite X2.
    reflexivity. }
  cbv zeta. rewrite R. cbn [fst snd]. clear R.
  pose proof (open_step_inv m2 w3) as Ho. rewrite O2 in Ho. simpl in Ho.
  pose proof (ExecFile_inv (File m2) w4) as Hx. rewrite X2 in Hx. simpl in Hx.
  destruct Ho as [_ Ho]. destruct Hx as [_ Hx].
  simpl. rewrite Hx, Ho. simpl.
  split; [reflexivity|]. split; [reflexivity|]. split.
  - intros row H Hid.
    rewrite in_map_iff in H. destruct H as (r0 & <- & _).
    unfold update_open in *. destruct (id_is_1 r0) eqn:E; [split; reflexivity | congruence].
  - apply find_map_update_open.
Qed.

(** ** The differencer *)

Lemma GetCurrentMigration_log (w w1 : World Schema) (cur : Migration) :
  GetCurrentMigration w = ((cur, None), w1) ->
  log w1 = log w ++ [EvBegin true; EvExec SelectCurrent; EvCommit].
Proof.
  open_world w. tape_cases; destruct (find id_is_1 rows); simpl; tape_cases;
    intros H; inversion H; subst; simpl; rewrite <- ?app_assoc; reflexivity.
Qed.

(** C4. When the tracked row has [complete = false], [DiffMigrations]
    returns a nil slice and the error that names the row's version and
    file.  The world it leaves is the one the read of the row left: the
    directory is not walked and no file is read, whatever the directory
    holds. *)
Theorem DiffMigrations_unresolved
  (d : Database) (w w1 : World Schema) (currentMigration : Migration) :
  GetCurrentMigration w = ((currentMigration, None), w1) ->
  Complete currentMigration = false ->
  DiffMigrations md5hex d w
  = ((None, Some (Errorf_failed (Version currentMigration) (File currentMigration))), w1)
  /\ log w1 = log w ++ [EvBegin true; EvExec SelectCurrent; EvCommit].
Proof.
  intros Hget Hc. split; [| eapply GetCurrentMigration_log, Hget].
  unfold DiffMigrations, bind at 1. rewrite Hget, Hc. reflexivity.
Qed.

Lemma walk_fn_inv (cur : Migration) (e : Entry) (acc : list Migration) (w : World Schema) :
  let r := walk_fn md5hex cur e acc w in
  db (snd r) = db w /\ fs (snd r) = fs w /\
  match snd (fst r) with
  | Some _ => fst (fst r) = acc
  | None =>
      (fst (fst r) = acc /\ snd r = w /\
       (IsDir e = true \/ String.eqb (Go.Ext (path e)) ".sql" = false))
      \/ (exists m version,
             fst (fst r) = acc ++ [m] /\ accepted cur m /\
             IsDir e = false /\ String.eqb (Go.Ext (path e)) ".sql" = true /\
             Go.ParseInt (Go.RemoveAll (Go.Base (path e)) ".sql") = inl version /\
             Version m = Go.uint64 version /\ File m = path e)
  end.
Proof.
  cbv zeta. unfold walk_fn.
  destruct (walk_err e); [now repeat split|].
  destruct (IsDir e) eqn:Edir; [simpl; repeat split; left; auto|].
  destruct (String.eqb (Go.Ext (path e)) ".sql") eqn:Eext; simpl;
    [|repeat split; left; auto].
  destruct (Go.ParseInt _) as [version|why] eqn:Ep; [|now repeat split].
  open_world w. tape_cases; try (now repeat split).
  all: destruct (content disk (path e)) as [bytes|]; simpl; try (now repeat split).
  all: match goal with
       | |- context [if ?c then _ else _] => destruct c eqn:Edrift
       end; simpl; try (now repeat split).
  all: repeat split; right; eexists; exists version; repeat split; simpl; try reflexivity.
  all: intros Hv; apply andb_false_iff in Edrift; destruct Edrift as [Edrift|Edrift];
    [apply Z.eqb_neq in Edrift; simpl in Edrift; congruence
    | apply negb_false_iff, String.eqb_eq in Edrift; exact Edrift].
Qed.

(** A name [strconv.ParseInt] rejects is fatal: the function returns the
    parse error without reading the file, and appends nothing. *)
Lemma walk_fn_malformed_name (cur : Migration) (e : Entry) (acc : list Migration)
      (w : World Schema) (why : Go.num_err) :
  walk_err e = None -> IsDir e = false -> Go.Ext (path e) = ".sql" ->
  Go.ParseInt (Go.RemoveAll (Go.Base (path e)) ".sql") = inr why ->
  walk_fn md5hex cur e acc w
  = ((acc, Some (ErrNum (Go.RemoveAll (Go.Base (path e)) ".sql") why)), w).
Proof.
  intros He Hd Hx Hp. unfold walk_fn. now rewrite He, Hd, Hx, Hp.
Qed.

Lemma Walk_inv (cur : Migration) (entries : list Entry) :
  forall (acc : list Migration) (w : World Schema),
    let r := Walk (walk_fn md5hex cur) entries acc w in
    db (snd r) = db w /\ fs (snd r) = fs w /\
    (Forall (accepted cur) acc -> Forall (accepted cur) (fst (fst r))).
Proof.
  induction entries as [|e entries IH]; intros acc w; cbv zeta; [now repeat split|].
  cbn [Walk]. unfold bind.
  pose proof (walk_fn_inv cur e acc w) as H. cbv zeta in H.
  destruct (walk_fn md5hex cur e acc w) as [[acc' [x|]] w']; simpl in H |- *.
  - destruct H as (Hdb & Hfs & ->). unfold ret. simpl. repeat split; auto.
  - destruct H as (Hdb & Hfs & H).
    specialize (IH acc' w'). cbv zeta in IH. destruct IH as (Hdb' & Hfs' & IH).
    rewrite Hdb', Hfs'. repeat split; try assumption.
    intros Hacc. apply IH.
    destruct H as [(-> & _)|(m & v & -> & Hm & _)]; [assumption|].
    apply Forall_app. split; [assumption | now constructor].
Qed.

(** Past the two guards, [DiffMigrations] is the walk of the directory. *)
Lemma DiffMigrations_walks (d : Database) (w w1 : World Schema) (cur : Migration) :
  GetCurrentMigration w = ((cur, None), w1) ->
  Complete cur = true ->
  DiffMigrations md5hex d w
  = (let r := Walk (walk_fn md5hex cur) (tree (fs w1) (migrationDir d)) []
                (snd (emit (EvWalk (migrationDir d)) w1)) in
     ((Some (fst (fst r)), snd (fst r)), snd r)).
Proof.
  intros Hget Hc. unfold DiffMigrations, bind at 1. rewrite Hget, Hc. simpl.
  unfold bind, emit, ret. simpl.
  destruct (Walk _ _ _ _) as [[ms err] w2]. reflexivity.
Qed.

Lemma DiffMigrations_inv (d : Database) (w w1 : World Schema) (cur : Migration) :
  GetCurrentMigration w = ((cur, None), w1) ->
  let r := DiffMigrations md5hex d w in
  db (snd r) = db w /\ fs (snd r) = fs w /\
  find id_is_1 (db_version (db w)) = Some cur /\
  forall migrations, fst (fst r) = Some migrations ->
                     Complete cur = true /\ Forall (accepted cur) migrations.
Proof.
  intros Hget. cbv zeta.
  pose proof (GetCurrentMigration_inv w) as G. rewrite Hget in G. simpl in G.
  destruct G as (Gdb & Gfs & _ & Gfind).
  destruct (Complete cur) eqn:Ec.
  - rewrite (DiffMigrations_walks d w Hget Ec). cbv zeta. simpl.
    match goal with
    | |- context [Walk _ ?es ?a ?w'] =>
        pose proof (Walk_inv cur es a w') as H; cbv zeta in H;
        destruct (Walk (walk_fn md5hex cur) es a w') as [[ms err] w2]
    end.
    simpl in *. destruct H as (Hdb & Hfs & Hacc).
    repeat split; try congruence.
    inversion H; subst. apply Hacc. constructor.
  - unfold DiffMigrations, bind. rewrite Hget, Ec. simpl.
    repeat split; auto; discriminate.
Qed.

(** C5. Every candidate [DiffMigrations] returns carries [Complete = true]
    exactly when its version is at most the tracked row's, and
    [Complete = false] exactly when it is greater. *)
Theorem DiffMigrations_classifies
  (d : Database) (w w1 w' : World Schema) (currentMigration : Migration)
  (migrations : list Migration) (err : option error) :
  GetCurrentMigration w = ((currentMigration, None), w1) ->
  DiffMigrations md5hex d w = ((Some migrations, err), w') ->
  forall m, In m migrations ->
            (Complete m = true <-> Version m <= Version currentMigration) /\
            (Complete m = false <-> Version currentMigration < Version m).
Proof.
  intros Hget Hdiff m Hin.
  pose proof (DiffMigrations_inv d w Hget) as H. cbv zeta in H. rewrite Hdiff in H.
  destruct H as (_ & _ & _ & H). destruct (H migrations eq_refl) as [_ Hacc].
  rewrite Forall_forall in Hacc. destruct (Hacc m Hin) as [Hc _].
  rewrite Hc. split.
  - apply Z.leb_le.
  - rewrite Z.leb_gt. reflexivity.
Qed.

Lemma Walk_app (A : Type) (fn : Entry -> A -> M Schema (A * option error))
      (pre post : list Entry) :
  forall (a : A) (w : World Schema),
    Walk fn (pre ++ post) a w
    = (let r := Walk fn pre a w in
       match snd (fst r) with
       | Some x => r
       | None => Walk fn post (fst (fst r)) (snd r)
       end).
Proof.
  induction pre as [|e pre IH]; intros a w; [reflexivity|].
  cbn [app Walk]. unfold bind.
  destruct (fn e a w) as [[a' [x|]] w']; [reflexivity|].
  apply IH.
Qed.

Lemma walk_fn_drift (cur : Migration) (e : Entry) (acc : list Migration)
      (w w' : World Schema) (m : Migration) :
  discovers md5hex cur e w w' m ->
  Version m = Version cur -> Hash m <> Hash cur ->
  walk_fn md5hex cur e acc w = ((acc, Some Errorf_modified), w').
Proof.
  intros (He & Hd & Hx & version & bytes & Hp & Hr & ->) Hv Hh. simpl in Hv, Hh.
  unfold walk_fn. rewrite He, Hd, Hx, Hp. simpl. unfold bind. rewrite Hr. simpl.
  rewrite Hv, Z.eqb_refl.
  destruct (String.eqb_spec (md5hex bytes) (Hash cur)) as [E|E]; [contradiction|].
  reflexivity.
Qed.

(** C2. When the walk reaches a file whose candidate has the tracked
    row's version and another hash, [DiffMigrations] returns the error
    about modified migrations, together with the candidates accepted
    before it; the drifted candidate is not among them, and no candidate
    returned ever has the tracked version with another hash. *)
Theorem DiffMigrations_drift
  (d : Database) (w w1 w2 w3 : World Schema) (currentMigration : Migration)
  (pre post : list Entry) (e : Entry) (acc : list Migration) (m : Migration) :
  GetCurrentMigration w = ((currentMigration, None), w1) ->
  Complete currentMigration = true ->
  tree (fs w1) (migrationDir d) = pre ++ e :: post ->
  Walk (walk_fn md5hex currentMigration) pre []
       (snd (emit (EvWalk (migrationDir d)) w1)) = ((acc, None), w2) ->
  discovers md5hex currentMigration e w2 w3 m ->
  Version m = Version currentMigration ->
  Hash m <> Hash currentMigration ->
  DiffMigrations md5hex d w = ((Some acc, Some Errorf_modified), w3)
  /\ ~ In m acc
  /\ forall a, In a acc ->
               Version a = Version currentMigration -> Hash a = Hash currentMigration.
Proof.
  intros Hget Hc Htree Hpre Hdisc Hv Hh.
  assert (Forall (accepted currentMigration) acc) as Hacc.
  { pose proof (Walk_inv currentMigration pre []
                  (snd (emit (EvWalk (migrationDir d)) w1))) as H.
    cbv zeta in H. rewrite Hpre in H. simpl in H. apply H. constructor. }
  rewrite Forall_forall in Hacc.
  split; [|split].
  - rewrite (DiffMigrations_walks d w Hget Hc), Htree. cbv zeta.
    rewrite Walk_app. cbv zeta. rewrite Hpre. cbn [fst snd Walk]. unfold bind.
    rewrite (walk_fn_drift acc Hdisc Hv Hh). reflexivity.
  - intros Hin. apply Hh. now apply (Hacc m Hin).
  - intros a Hin. apply (Hacc a Hin).
Qed.

(** ** The completing update *)

Lemma update_complete_other (version : Z) (rows : list Migration) :
  (forall row, In row rows -> id_is_1 row = true -> Version row <> version) ->
  map (update_complete version) rows = rows.
Proof.
  induction rows as [|r rows IH]; intros H; [reflexivity|].
  simpl. rewrite IH by (intros row Hin; apply H; now right). f_equal.
  unfold update_complete.
  destruct (id_is_1 r) eqn:E; [|reflexivity].
  destruct (Z.eqb_spec (Version r) version) as [Ev|Ev]; [|reflexivity].
  exfalso. apply (H r); [now left | exact E | exact Ev].
Qed.

(** C3, as the code has it. When no row with id 1 carries the
    migration's version any more, the completing update changes nothing in
    the database and still reports success: the only errors it can return
    are those of the connection, and with a connection that does not fail
    it returns nil.  The runner then goes on: when that update is the one
    of a pending migration whose opening update and script went through,
    the loop counts the migration as applied, takes its version for the
    latest one and turns to the migrations that follow. *)
Theorem complete_step_moved_row (m : Migration) (w : World Schema) :
  (forall row, In row (db_version (db w)) -> id_is_1 row = true ->
               Version row <> Version m) ->
  let r := complete_step m w in
  db (snd r) = db w /\
  (forall e, fst r = Some e -> exists msg, e = ErrDriver msg /\ In (Some msg) (faults w)) /\
  ((forall msg, ~ In (Some msg) (faults w)) ->
   fst r = None /\
   forall (w0 w1 : World Schema) (rest : list Migration) (migrationStatus : MigrationStatus),
     Complete m = false ->
     open_step m w0 = (None, w1) ->
     ExecFile sql_exec (File m) w1 = (None, w) ->
     run_loop sql_exec (m :: rest) migrationStatus w0
     = run_loop sql_exec rest (add_Applied (Version m) migrationStatus) (snd r)).
Proof.
  intros Hmoved. cbv zeta.
  pose proof (complete_step_inv m w) as H. cbv zeta in H.
  destruct (complete_step m w) as [[e|] w'] eqn:Ec; simpl in *; destruct H as [_ H].
  - destruct H as [Hdb (msg & -> & Hin)]. split; [exact Hdb|]. split.
    + intros e He. inversion He; subst. eauto.
    + intros Hquiet. exfalso. apply (Hquiet msg Hin).
  - split.
    + rewrite H, update_complete_other by exact Hmoved. now destruct (db w).
    + split; [discriminate|]. intros _. split; [reflexivity|].
      intros w0 w1 rest migrationStatus Hp Ho Hx.
      rewrite Hp. unfold bind at 1. rewrite Ho.
      unfold bind at 1. rewrite Hx.
      unfold bind at 1. rewrite Ec. reflexivity.
Qed.

(** ** Bootstrap *)

Lemma find_app_none (f : Migration -> bool) (l1 l2 : list Migration) :
  find f l1 = None -> find f (l1 ++ l2) = find f l2.
Proof.
  induction l1 as [|x l1 IH]; [reflexivity|].
  simpl. destruct (f x); [discriminate | exact IH].
Qed.

Lemma Dial_inv (conf : Config) (w : World Schema) :
  find id_is_1 (db_version (db w)) = None ->
  let r := Dial conf w in
  snd (fst r) <> Some ErrNoRows /\
  (faults w = [] -> snd (fst r) = None) /\
  (snd (fst r) = None ->
   fst (fst r) = Some {| migrationDir := MigrationDir conf |} /\
   db_version (db (snd r)) = db_version (db w) ++ [bootstrap_row (clock w)]).
Proof.
  destruct w as [[rows sch] disk tape now lg]. simpl. intros Hfresh.
  unfold Dial, db_Exec. unfold_ops. simpl.
  tape_cases; rewrite ?Hfresh; simpl; tape_cases.
  all: repeat split; try discriminate; try reflexivity.
Qed.

(** C7. On a database whose table holds no row with id 1: reading the
    current migration yields [sql.ErrNoRows]; [Dial] never returns that
    error, and with a connection that does not fail it returns nil; when
    it returns nil it has added the row with version 0 and
    [complete = true] to the table, after which a read of the current
    migration never yields [sql.ErrNoRows] again, whatever the connection
    does, and yields that row whenever it succeeds. *)
Theorem Dial_bootstrap (conf : Config) (w : World Schema) :
  find id_is_1 (db_version (db w)) = None ->
  let r := Dial conf w in
  let row := bootstrap_row (clock w) in
  (faults w = [] -> fst (GetCurrentMigration w) = (zero_Migration, Some ErrNoRows)) /\
  snd (fst r) <> Some ErrNoRows /\
  (faults w = [] -> snd (fst r) = None) /\
  (snd (fst r) = None ->
   fst (fst r) = Some {| migrationDir := MigrationDir conf |} /\
   db_version (db (snd r)) = db_version (db w) ++ [row] /\
   Version row = 0 /\ Complete row = true /\
   forall tape,
     let g := GetCurrentMigration (set_faults tape (snd r)) in
     snd (fst g) <> Some ErrNoRows /\
     (snd (fst g) = None -> fst (fst g) = row) /\
     (tape = [] -> fst g = (row, None))).
Proof.
  intros Hfresh. cbv zeta.
  pose proof (Dial_inv conf w Hfresh) as (Hnot & Hquiet & Hok). cbv zeta in *.
  split.
  { intros Hq. rewrite GetCurrentMigration_quiet by exact Hq. now rewrite Hfresh. }
  split; [exact Hnot|]. split; [exact Hquiet|].
  intros Hnil. destruct (Hok Hnil) as [Hd Hrows].
  split; [exact Hd|]. split; [exact Hrows|]. split; [reflexivity|]. split; [reflexivity|].
  intros tape.
  assert (find id_is_1 (db_version (db (set_faults tape (snd (Dial conf w)))))
          = Some (bootstrap_row (clock w))) as Hfind.
  { simpl. rewrite Hrows, find_app_none by exact Hfresh. reflexivity. }
  pose proof (GetCurrentMigration_inv (set_faults tape (snd (Dial conf w)))) as G.
  cbv zeta in G. destruct G as (_ & _ & _ & G).
  split; [|split].
  - intros He. rewrite He in G. specialize (G eq_refl). congruence.
  - intros He. rewrite He in G. congruence.
  - intros ->. rewrite GetCurrentMigration_quiet by reflexivity.
    now rewrite Hfind.
Qed.

(** ** Ordering is independent of the order of the input *)

(** C8. For migrations with pairwise distinct versions, the sort yields a
    rearrangement of the input whose versions are strictly ascending, and
    [RunMigrations] gives the same status, error and world on every
    permutation of the input. *)
Theorem RunMigrations_order_invariant
  (currentMigration : Migration) (migrations : list Migration) :
  NoDup (map Version migrations) ->
  StronglySorted lt_version (sort_Sort migrations) /\
  Permutation migrations (sort_Sort migrations) /\
  forall migrations',
    Permutation migrations migrations' ->
    forall w : World Schema,
      RunMigrations sql_exec currentMigration migrations' w
      = RunMigrations sql_exec currentMigration migrations w.
Proof.
  intros Hnd. split; [now apply sort_Sort_strict|].
  split; [apply sort_Sort_perm|].
  intros migrations' Hp w. unfold RunMigrations.
  now rewrite (sort_Sort_permutation_invariant Hnd Hp).
Qed.

(** ** Idempotence *)

Lemma run_loop_fs (migrations : list Migration) :
  forall (st : MigrationStatus) (w : World Schema),
    fs (snd (run_loop sql_exec migrations st w)) = fs w.
Proof.
  induction migrations as [|m rest IH]; intros st w; [reflexivity|].
  cbn [run_loop]. destruct (Complete m); [apply IH|].
  unfold bind, log_error, emit, ret.
  pose proof (open_step_inv m w) as Ho. cbv zeta in Ho.
  destruct (open_step m w) as [[e|] w1]; simpl in Ho; destruct Ho as [Ho _];
    [exact Ho|].
  pose proof (ExecFile_inv (File m) w1) as Hx. cbv zeta in Hx.
  destruct (ExecFile sql_exec (File m) w1) as [[e|] w2]; simpl in Hx;
    destruct Hx as [Hx _]; [simpl; congruence|].
  pose proof (complete_step_inv m w2) as Hk. cbv zeta in Hk.
  destruct (complete_step m w2) as [[e|] w3]; simpl in Hk;
    destruct Hk as [Hk _]; [simpl; congruence|].
  rewrite IH. congruence.
Qed.

(** A run over complete migrations only counts them and touches nothing. *)
Lemma run_loop_all_complete (migrations : list Migration) :
  Forall (fun m => Complete m = true) migrations ->
  forall (st : MigrationStatus) (w : World Schema),
    0 <= Skipped st ->
    Skipped st + Z.of_nat (List.length migrations) < 2 ^ 64 ->
    run_loop sql_exec migrations st w
    = (({| Applied := Applied st; Failed := Failed st;
           Skipped := Skipped st + Z.of_nat (List.length migrations);
           Latest := Latest st |}, None), w).
Proof.
  induction 1 as [|m rest Hm Hrest IH]; intros st w Hs Hroom.
  - simpl. rewrite Z.add_0_r. now destruct st.
  - cbn [run_loop]. rewrite Hm.
    assert (Z.of_nat (List.length (m :: rest)) = Z.of_nat (List.length rest) + 1) as Hlen
      by (simpl List.length; lia).
    rewrite Hlen in *.
    rewrite IH; unfold add_Skipped; simpl; rewrite uint64_small by lia; try lia.
    do 3 f_equal. lia.
Qed.

Lemma update_open_stamps (m : Migration) (now : Z) (rows : list Migration) :
  forall row, In row (map (update_open m now) rows) -> id_is_1 row = true ->
              stamped m false row.
Proof.
  intros row Hin Hid. rewrite in_map_iff in Hin. destruct Hin as (r0 & <- & _).
  unfold update_open in *.
  destruct (id_is_1 r0) eqn:E; [repeat split | congruence].
Qed.

Lemma update_complete_stamps (m : Migration) (rows : list Migration) :
  (forall row, In row rows -> id_is_1 row = true -> stamped m false row) ->
  forall row, In row (map (update_complete (Version m)) rows) -> id_is_1 row = true ->
              stamped m true row.
Proof.
  intros H row Hin Hid. rewrite in_map_iff in Hin. destruct Hin as (r0 & <- & Hin).
  unfold update_complete in *.
  destruct (id_is_1 r0) eqn:E; simpl in *; [|congruence].
  destruct (H r0 Hin E) as (Hv & Hh & _).
  rewrite Hv, Z.eqb_refl. repeat split; assumption.
Qed.

Lemma has_tracked_map (f : Migration -> Migration) (rows : list Migration) :
  (forall r, id_is_1 (f r) = id_is_1 r) ->
  has_tracked rows -> has_tracked (map f rows).
Proof.
  intros Hf (r & Hin & Hid). exists (f r). split; [now apply in_map | now rewrite Hf].
Qed.

Lemma update_open_id (m : Migration) (now : Z) (r : Migration) :
  id_is_1 (update_open m now r) = id_is_1 r.
Proof. unfold update_open. destruct (id_is_1 r) eqn:E; [exact E | exact E]. Qed.

Lemma update_complete_id (version : Z) (r : Migration) :
  id_is_1 (update_complete version r) = id_is_1 r.
Proof.
  unfold update_complete.
  destruct (id_is_1 r && (Version r =? version)); [|reflexivity].
  reflexivity.
Qed.

(** Scripts that leave the tracking table alone never lose the row. *)
Lemma run_loop_keeps_row (migrations : list Migration) :
  (forall s d d', sql_exec s d = inl d' -> db_version d' = db_version d) ->
  forall (st : MigrationStatus) (w : World Schema),
    has_tracked (db_version (db w)) ->
    has_tracked (db_version (db (snd (run_loop sql_exec migrations st w)))).
Proof.
  intros Hsql.
  induction migrations as [|m rest IH]; intros st w Hrow; [exact Hrow|].
  cbn [run_loop]. destruct (Complete m); [now apply IH|].
  unfold bind, log_error, emit, ret.
  pose proof (open_step_inv m w) as Ho. cbv zeta in Ho.
  destruct (open_step m w) as [[e|] w1]; simpl in Ho; destruct Ho as [_ Ho];
    [simpl; now rewrite Ho|].
  assert (has_tracked (db_version (db w1))) as Hrow1.
  { rewrite Ho. simpl. apply has_tracked_map; [apply update_open_id | exact Hrow]. }
  pose proof (ExecFile_inv (File m) w1) as Hx. cbv zeta in Hx.
  destruct (ExecFile sql_exec (File m) w1) as [[e|] w2]; simpl in Hx;
    destruct Hx as [_ Hx]; [simpl; now rewrite Hx|].
  pose proof (complete_step_inv m w2) as Hk. cbv zeta in Hk.
  destruct (complete_step m w2) as [[e|] w3]; simpl in Hk; destruct Hk as [_ Hk].
  - destruct Hk as [Hk _]. simpl. now rewrite Hk, (Hx Hsql).
  - apply IH. rewrite Hk. simpl.
    apply has_tracked_map; [apply update_complete_id | now rewrite (Hx Hsql)].
Qed.

(** After a run without error, either nothing was pending and the world
    is untouched, or every row with id 1 carries the version and hash of
    the last pending migration and is complete. *)
Lemma run_loop_tracked (migrations : list Migration) :
  (forall s d d', sql_exec s d = inl d' -> db_version d' = db_version d) ->
  forall (st : MigrationStatus) (w : World Schema),
    let r := run_loop sql_exec migrations st w in
    snd (fst r) = None ->
    match last_pending migrations with
    | None => snd r = w
    | Some m => forall row, In row (db_version (db (snd r))) -> id_is_1 row = true ->
                            stamped m true row
    end.
Proof.
  intros Hsql.
  induction migrations as [|m rest IH]; intros st w; cbv zeta; [reflexivity|].
  cbn [run_loop last_pending].
  destruct (Complete m) eqn:Ec.
  - intros Hnil. specialize (IH _ w Hnil).
    destruct (last_pending rest); exact IH.
  - unfold bind, log_error, emit, ret.
    pose proof (open_step_inv m w) as Ho. cbv zeta in Ho.
    destruct (open_step m w) as [[e|] w1]; simpl in Ho; destruct Ho as [_ Ho];
      [discriminate|].
    pose proof (ExecFile_inv (File m) w1) as Hx. cbv zeta in Hx.
    destruct (ExecFile sql_exec (File m) w1) as [[e|] w2]; simpl in Hx;
      destruct Hx as [_ Hx]; [discriminate|].
    pose proof (complete_step_inv m w2) as Hk. cbv zeta in Hk.
    destruct (complete_step m w2) as [[e|] w3]; simpl in Hk;
      destruct Hk as [_ Hk]; [discriminate|].
    intros Hnil. specialize (IH _ w3 Hnil).
    destruct (last_pending rest); [exact IH|].
    rewrite IH, Hk. simpl.
    apply update_complete_stamps.
    rewrite (Hx Hsql), Ho. simpl.
    apply update_open_stamps.
Qed.

Lemma last_pending_none (migrations : list Migration) :
  last_pending migrations = None -> Forall (fun m => Complete m = true) migrations.
Proof.
  induction migrations as [|m rest IH]; simpl; [constructor|].
  destruct (last_pending rest); [discriminate|].
  destruct (Complete m) eqn:Ec; [|discriminate].
  intros _. constructor; [exact Ec | now apply IH].
Qed.

Lemma last_pending_some (migrations : list Migration) (m : Migration) :
  last_pending migrations = Some m -> In m migrations /\ Complete m = false.
Proof.
  induction migrations as [|a rest IH]; simpl; [discriminate|].
  destruct (last_pending rest) as [m'|].
  - intros H. destruct (IH H) as (Hin & Hc). auto.
  - destruct (Complete a) eqn:Ec; [discriminate|].
    intros H. inversion H; subst. auto.
Qed.

(** In ascending order the last pending migration has the largest version. *)
Lemma last_pending_max (cur : Migration) (migrations : list Migration) :
  StronglySorted le_version migrations ->
  Forall (accepted cur) migrations ->
  forall x, In x migrations ->
            match last_pending migrations with
            | Some m => Version x <= Version m
            | None => Version x <= Version cur
            end.
Proof.
  induction 1 as [|a rest Hs IH Ha]; intros Hacc x Hin; [destruct Hin|].
  inversion Hacc as [|? ? Haa Hacc']; subst.
  simpl. destruct (last_pending rest) as [m|] eqn:El.
  - destruct Hin as [<-|Hin]; [|now apply IH].
    destruct (last_pending_some rest El) as (Hin' & _).
    rewrite Forall_forall in Ha. apply (Ha m Hin').
  - assert (forall y, In y rest -> Version y <= Version cur) as Hrest
      by (intros y Hy; now apply IH).
    destruct (Complete a) eqn:Ec.
    + destruct Hin as [<-|Hin]; [|now apply Hrest].
      destruct Haa as [Haa _]. rewrite Ec in Haa. symmetry in Haa.
      now apply Z.leb_le in Haa.
    + destruct Hin as [<-|Hin]; [lia|].
      destruct Haa as [Haa _]. rewrite Ec in Haa. symmetry in Haa.
      apply Z.leb_gt in Haa. specialize (Hrest x Hin). lia.
Qed.

(** What a call of the walk function that returns no error has done. *)
Lemma walk_fn_success (cur : Migration) (e : Entry) (acc l : list Migration)
      (w w' : World Schema) :
  walk_fn md5hex cur e acc w = ((l, None), w') ->
  l = acc ++ candidate_of md5hex cur (fs w) e /\ readable (fs w) e.
Proof.
  unfold walk_fn, candidate_of, readable.
  destruct (walk_err e); [discriminate|].
  destruct (IsDir e) eqn:Edir.
  { intros H. inversion H. rewrite app_nil_r. repeat split; discriminate. }
  destruct (String.eqb_spec (Go.Ext (path e)) ".sql") as [Eext|Eext]; simpl.
  2:{ intros H. inversion H. rewrite app_nil_r. repeat split; contradiction. }
  destruct (Go.ParseInt _) as [version|why] eqn:Ep; [|discriminate].
  open_world w. tape_cases; try discriminate.
  all: destruct (content disk (path e)) as [bytes|]; simpl; try discriminate.
  all: match goal with
       | |- context [if ?c then _ else _] => destruct c
       end; simpl; try discriminate.
  all: intros H; inversion H; repeat split; eauto.
Qed.

Lemma Walk_success (cur : Migration) (entries : list Entry) :
  forall (acc l : list Migration) (w w' : World Schema),
    Walk (walk_fn md5hex cur) entries acc w = ((l, None), w') ->
    l = acc ++ candidates md5hex cur (fs w) entries /\ Forall (readable (fs w)) entries.
Proof.
  induction entries as [|e entries IH]; intros acc l w w'.
  - simpl. unfold ret. intros H. inversion H. now rewrite app_nil_r.
  - cbn [Walk]. unfold bind.
    pose proof (walk_fn_inv cur e acc w) as Hfs. cbv zeta in Hfs.
    destruct (walk_fn md5hex cur e acc w) as [[acc' [x|]] w1] eqn:E; [discriminate|].
    destruct Hfs as (_ & Hfs & _). simpl in Hfs.
    destruct (@walk_fn_success _ _ _ _ _ _ E) as [-> Hr].
    intros H. destruct (IH _ _ _ _ H) as [-> Hrest]. rewrite Hfs in *.
    split; [simpl; now rewrite app_assoc | now constructor].
Qed.

(** With a connection and a disk that do not fail, the walk function gets
    through every readable entry whose candidate has not drifted. *)
Lemma walk_fn_quiet (cur : Migration) (e : Entry) (acc : list Migration) (w : World Schema) :
  faults w = [] ->
  readable (fs w) e ->
  (forall c, In c (candidate_of md5hex cur (fs w) e) ->
             Version c = Version cur -> Hash c = Hash cur) ->
  exists w',
    walk_fn md5hex cur e acc w = ((acc ++ candidate_of md5hex cur (fs w) e, None), w') /\
    faults w' = [] /\ fs w' = fs w.
Proof.
  unfold walk_fn, candidate_of, readable.
  intros Hq [He Hr] Hdrift. rewrite He.
  destruct (IsDir e) eqn:Edir.
  { exists w. rewrite app_nil_r. now repeat split. }
  destruct (String.eqb_spec (Go.Ext (path e)) ".sql") as [Eext|Eext]; simpl.
  2:{ exists w. rewrite app_nil_r. now repeat split. }
  destruct (Hr eq_refl Eext) as [[version Hp] [bytes Hb]].
  simpl in Hdrift. rewrite Hp in *. rewrite Hb in Hdrift.
  destruct w as [[rows sch] disk tape now lg]. simpl in *. subst tape.
  unfold_ops. simpl. rewrite Hb. simpl.
  match goal with
  | |- context [if ?c then _ else _] => destruct c eqn:Ec
  end.
  - exfalso. apply andb_true_iff in Ec. destruct Ec as [Ev Eh].
    apply Z.eqb_eq in Ev. apply negb_true_iff in Eh.
    destruct (String.eqb_spec (md5hex bytes) (Hash cur)) as [_|Hne]; [discriminate|].
    apply Hne. apply (Hdrift _ (or_introl eq_refl)). exact Ev.
  - eexists. repeat split.
Qed.

Lemma Walk_quiet (cur : Migration) (entries : list Entry) :
  forall (acc : list Migration) (w : World Schema),
    faults w = [] ->
    Forall (readable (fs w)) entries ->
    (forall c, In c (candidates md5hex cur (fs w) entries) ->
               Version c = Version cur -> Hash c = Hash cur) ->
    exists w',
      Walk (walk_fn md5hex cur) entries acc w
      = ((acc ++ candidates md5hex cur (fs w) entries, None), w').
Proof.
  induction entries as [|e entries IH]; intros acc w Hq Hr Hdrift.
  - exists w. simpl. now rewrite app_nil_r.
  - inversion Hr as [|? ? He Hrest]; subst.
    destruct (@walk_fn_quiet cur e acc w Hq He) as (w1 & E & Hq1 & Hfs1).
    { intros c Hin. apply Hdrift. simpl. apply in_or_app. now left. }
    destruct (IH (acc ++ candidate_of md5hex cur (fs w) e) w1 Hq1) as (w' & E').
    { now rewrite Hfs1. }
    { rewrite Hfs1. intros c Hin. apply Hdrift. simpl. apply in_or_app. now right. }
    exists w'. cbn [Walk]. unfold bind. rewrite E, E', Hfs1. simpl.
    now rewrite app_assoc.
Qed.

Lemma GetCurrentMigration_quiet_world (w : World Schema) (r : Migration) :
  faults w = [] ->
  find id_is_1 (db_version (db w)) = Some r ->
  exists w', GetCurrentMigration w = ((r, None), w') /\
             faults w' = [] /\ fs w' = fs w /\ db w' = db w.
Proof.
  destruct w as [[rows sch] disk tape now lg]. simpl. intros -> Hfind.
  unfold_ops. simpl. rewrite Hfind. simpl. eexists. repeat split.
Qed.

(** The candidates of a disk do not depend on the tracked row but for
    their [Complete] flag. *)
Lemma candidates_recast (cur cur' : Migration) (disk : FS) (entries : list Entry) :
  candidates md5hex cur' disk entries = map (recast cur') (candidates md5hex cur disk entries).
Proof.
  induction entries as [|e entries IH]; [reflexivity|].
  unfold candidates in *. simpl. rewrite map_app, IH. f_equal.
  unfold candidate_of.
  destruct (IsDir e); [reflexivity|].
  destruct (negb _); [reflexivity|].
  destruct (Go.ParseInt _); [|reflexivity].
  destruct (content disk (path e)); reflexivity.
Qed.

Lemma NoDup_map_eq (A B : Type) (f : A -> B) (l : list A) :
  NoDup (map f l) -> forall a b, In a l -> In b l -> f a = f b -> a = b.
Proof.
  induction l as [|x l IH]; intros Hnd a b Ha Hb Hf; [destruct Ha|].
  simpl in Hnd. inversion Hnd as [|? ? Hnotin Hnd']; subst.
  destruct Ha as [->|Ha]; destruct Hb as [->|Hb]; try reflexivity.
  - exfalso. apply Hnotin. rewrite Hf. now apply in_map.
  - exfalso. apply Hnotin. rewrite <- Hf. now apply in_map.
  - now apply IH.
Qed.

Lemma DiffMigrations_success (d : Database) (w w' : World Schema)
      (migrations : list Migration) (err : option error) :
  DiffMigrations md5hex d w = ((Some migrations, err), w') ->
  exists cur w1, GetCurrentMigration w = ((cur, None), w1) /\ Complete cur = true.
Proof.
  unfold DiffMigrations, bind at 1.
  destruct (GetCurrentMigration w) as [[cur [e|]] w1]; [discriminate|].
  destruct (Complete cur) eqn:Ec; [|discriminate].
  intros _. eauto.
Qed.

(** A diff without error returns the candidates of the disk, every entry
    of which is readable. *)
Lemma DiffMigrations_candidates (d : Database) (w w1 w' : World Schema) (cur : Migration)
      (migrations : list Migration) :
  GetCurrentMigration w = ((cur, None), w1) ->
  DiffMigrations md5hex d w = ((Some migrations, None), w') ->
  migrations = candidates md5hex cur (fs w) (tree (fs w) (migrationDir d)) /\
  Forall (readable (fs w)) (tree (fs w) (migrationDir d)).
Proof.
  intros Hget Hdiff.
  destruct (DiffMigrations_success d w Hdiff) as (cur' & w1' & Hget' & Hc).
  rewrite Hget in Hget'. inversion Hget'; subst cur' w1'.
  pose proof (GetCurrentMigration_inv w) as G. rewrite Hget in G. simpl in G.
  destruct G as (_ & Gfs & _).
  rewrite (DiffMigrations_walks d w Hget Hc) in Hdiff. cbv zeta in Hdiff.
  destruct (Walk _ _ _ _) as [[l err] w2] eqn:E. simpl in Hdiff.
  inversion Hdiff; subst.
  apply Walk_success in E. simpl in E. now rewrite Gfs in E.
Qed.

Lemma has_tracked_find (rows : list Migration) :
  has_tracked rows -> exists r, find id_is_1 rows = Some r.
Proof.
  intros (r & Hin & Hid).
  destruct (find id_is_1 rows) as [r'|] eqn:E; [eauto|].
  pose proof (find_none _ _ E r Hin). congruence.
Qed.

(** After a first pass without error the tracked row is complete, its
    version dominates every candidate of the pass, and no candidate with
    that version has another hash. *)
Lemma tracked_after_first_pass
      (d : Database) (cur1 : Migration) (w0 w1 w2 : World Schema)
      (migrations1 : list Migration) (st1 : MigrationStatus) :
  (forall s db0 db1, sql_exec s db0 = inl db1 -> db_version db1 = db_version db0) ->
  DiffMigrations md5hex d w0 = ((Some migrations1, None), w1) ->
  RunMigrations sql_exec cur1 migrations1 w1 = ((st1, None), w2) ->
  fs w2 = fs w0 /\
  has_tracked (db_version (db w2)) /\
  forall cb, find id_is_1 (db_version (db w2)) = Some cb ->
             Complete cb = true /\
             (forall m, In m migrations1 -> Version m <= Version cb) /\
             (NoDup (map Version migrations1) ->
              forall c, In c migrations1 -> Version c = Version cb -> Hash c = Hash cb).
Proof.
  intros Hsql Hd1 Hr1.
  destruct (DiffMigrations_success d w0 Hd1) as (ca & wa & Hga & Hca).
  pose proof (DiffMigrations_inv d w0 Hga) as I1. cbv zeta in I1. rewrite Hd1 in I1.
  simpl in I1. destruct I1 as (Hdb1 & Hfs1 & Hfa & I1).
  destruct (I1 _ eq_refl) as [_ Hacc1].
  unfold RunMigrations in Hr1.
  set (st0 := {| Applied := 0; Failed := 0; Skipped := 0; Latest := Version cur1 |}) in *.
  pose proof (run_loop_fs (sort_Sort migrations1) st0 w1) as Hf.
  pose proof (run_loop_tracked (sort_Sort migrations1) Hsql st0 w1) as Ht.
  pose proof (run_loop_keeps_row (sort_Sort migrations1) Hsql st0 w1) as Hk.
  cbv zeta in Ht. rewrite Hr1 in Hf, Ht, Hk. simpl in Hf, Ht, Hk. specialize (Ht eq_refl).
  assert (has_tracked (db_version (db w1))) as Hrow1.
  { rewrite Hdb1. apply find_some in Hfa. destruct Hfa. now exists ca. }
  split; [congruence|]. split; [now apply Hk|].
  intros cb Hfb.
  assert (Forall (accepted ca) (sort_Sort migrations1)) as Hacc'
    by (eapply Permutation_Forall; [apply sort_Sort_perm | exact Hacc1]).
  pose proof (@last_pending_max ca _ (sort_Sort_sorted migrations1) Hacc') as Hmax.
  assert (forall m, In m migrations1 -> In m (sort_Sort migrations1)) as Hin'
    by (intros m Hin; eapply Permutation_in; [apply sort_Sort_perm | exact Hin]).
  destruct (last_pending (sort_Sort migrations1)) as [ml|] eqn:El.
  - apply find_some in Hfb. destruct Hfb as [Hinb Hidb].
    destruct (Ht cb Hinb Hidb) as (Hv & Hh & Hc).
    destruct (@last_pending_some _ _ El) as [Hml _].
    assert (In ml migrations1) as Hml'
      by (eapply Permutation_in; [apply Permutation_sym, sort_Sort_perm | exact Hml]).
    split; [exact Hc|]. split.
    + intros m Hin. rewrite Hv. now apply Hmax, Hin'.
    + intros Hnd c Hin Hcv.
      rewrite (@NoDup_map_eq _ _ Version migrations1 Hnd c ml Hin Hml') by congruence.
      congruence.
  - subst w2. rewrite Hdb1, Hfa in Hfb. inversion Hfb; subst cb.
    split; [exact Hca|]. split.
    + intros m Hin. now apply Hmax, Hin'.
    + intros _ c Hin. rewrite Forall_forall in Hacc1. apply (Hacc1 c Hin).
Qed.

(** Two passes in a row over the same directory, the first without error.
    Whenever the second diff succeeds, every candidate it returns is
    complete and the second run skips them all, leaving the world as the
    diff left it; and the second diff does succeed, over the same files,
    when the versions on disk are pairwise distinct and nothing fails. *)
Lemma second_pass
  (d : Database) (cur1 : Migration) (w0 w1 w2 : World Schema)
  (migrations1 : list Migration) (st1 : MigrationStatus) :
  (forall s db0 db1, sql_exec s db0 = inl db1 -> db_version db1 = db_version db0) ->
  DiffMigrations md5hex d w0 = ((Some migrations1, None), w1) ->
  RunMigrations sql_exec cur1 migrations1 w1 = ((st1, None), w2) ->
  (forall (cur2 : Migration) (migrations2 : list Migration) (w3 : World Schema),
      DiffMigrations md5hex d w2 = ((Some migrations2, None), w3) ->
      Z.of_nat (List.length migrations2) <= Go.MaxInt ->
      Forall (fun m => Complete m = true) migrations2 /\
      RunMigrations sql_exec cur2 migrations2 w3
      = (({| Applied := 0; Failed := 0; Skipped := Z.of_nat (List.length migrations2);
             Latest := Version cur2 |}, None), w3)) /\
  (NoDup (map Version migrations1) -> faults w2 = [] ->
   exists (migrations2 : list Migration) (w3 : World Schema),
     DiffMigrations md5hex d w2 = ((Some migrations2, None), w3) /\
     map File migrations2 = map File migrations1).
Proof.
  intros Hsql Hd1 Hr1.
  destruct (@tracked_after_first_pass d cur1 w0 w1 w2 migrations1 st1 Hsql Hd1 Hr1)
    as (Hfs & Hrow & K).
  destruct (DiffMigrations_success d w0 Hd1) as (ca & wa & Hga & Hca).
  destruct (@DiffMigrations_candidates d w0 _ _ _ _ Hga Hd1) as [Hm1 Hread].
  split.
  - intros cur2 migrations2 w3 Hd2 Hlen.
    destruct (DiffMigrations_success d w2 Hd2) as (cb & wb & Hgb & Hcb).
    pose proof (GetCurrentMigration_inv w2) as G. rewrite Hgb in G. simpl in G.
    destruct G as (_ & _ & _ & Hfb).
    destruct (K cb Hfb) as (_ & Hdom & _).
    destruct (@DiffMigrations_candidates d w2 _ _ _ _ Hgb Hd2) as [Hm2 _].
    rewrite Hfs, (candidates_recast ca cb), <- Hm1 in Hm2.
    assert (Forall (fun m => Complete m = true) migrations2) as Hall.
    { subst migrations2. rewrite Forall_forall. intros m Hin.
      rewrite in_map_iff in Hin. destruct Hin as (c & <- & Hin).
      simpl. apply Z.leb_le. now apply Hdom. }
    split; [exact Hall|].
    unfold RunMigrations, Go.MaxInt in *.
    rewrite run_loop_all_complete; simpl.
    + now rewrite sort_Sort_length.
    + eapply Permutation_Forall; [apply sort_Sort_perm | exact Hall].
    + lia.
    + rewrite sort_Sort_length. lia.
  - intros Hnd Hq.
    destruct (@has_tracked_find _ Hrow) as (cb & Hfb).
    destruct (K cb Hfb) as (Hcb & _ & Hsame). specialize (Hsame Hnd).
    destruct (@GetCurrentMigration_quiet_world w2 cb Hq Hfb) as (wb & Hgb & Hqb & Hfsb & _).
    rewrite (DiffMigrations_walks d w2 Hgb Hcb). cbv zeta.
    destruct (@Walk_quiet cb (tree (fs wb) (migrationDir d)) []
                (snd (emit (EvWalk (migrationDir d)) wb))) as (w3 & E).
    + exact Hqb.
    + simpl. now rewrite Hfsb, Hfs.
    + simpl. rewrite Hfsb, Hfs, (candidates_recast ca cb), <- Hm1.
      intros c Hin. rewrite in_map_iff in Hin. destruct Hin as (c' & <- & Hin).
      simpl. now apply Hsame.
    + rewrite E. simpl. do 2 eexists. split; [reflexivity|].
      rewrite Hfsb, Hfs, (candidates_recast ca cb), <- Hm1, map_map. reflexivity.
Qed.

(** C9, with the versions on disk pairwise distinct. Two passes in a row
    over the same directory, the first without error, nothing failing in
    the second.  The second diff succeeds and returns one candidate for
    each file of the first pass, in the same order, every one of them
    complete, and it leaves the database as the first pass left it; the
    second run reports no migration applied, none failed and all of them
    skipped, and leaves the world exactly as the diff left it.  The
    scripts of the migrations are assumed not to write to the tracking
    table. *)
Theorem second_run_skips_all
  (d : Database) (cur1 : Migration) (w0 w1 w2 : World Schema)
  (migrations1 : list Migration) (st1 : MigrationStatus) :
  (forall s db0 db1, sql_exec s db0 = inl db1 -> db_version db1 = db_version db0) ->
  DiffMigrations md5hex d w0 = ((Some migrations1, None), w1) ->
  RunMigrations sql_exec cur1 migrations1 w1 = ((st1, None), w2) ->
  NoDup (map Version migrations1) ->
  faults w2 = [] ->
  Z.of_nat (List.length migrations1) <= Go.MaxInt ->
  exists (migrations2 : list Migration) (w3 : World Schema),
    DiffMigrations md5hex d w2 = ((Some migrations2, None), w3) /\
    map File migrations2 = map File migrations1 /\
    Forall (fun m => Complete m = true) migrations2 /\
    db w3 = db w2 /\
    forall cur2 : Migration,
      RunMigrations sql_exec cur2 migrations2 w3
      = (({| Applied := 0; Failed := 0; Skipped := Z.of_nat (List.length migrations1);
             Latest := Version cur2 |}, None), w3).
Proof.
  intros Hsql Hd1 Hr1 Hnd Hq Hlen.
  destruct (@second_pass d cur1 w0 w1 w2 migrations1 st1 Hsql Hd1 Hr1) as [Hskip Hagain].
  destruct (Hagain Hnd Hq) as (migrations2 & w3 & Hd2 & Hfiles).
  assert (List.length migrations2 = List.length migrations1) as Hsame.
  { rewrite <- (length_map File migrations2), Hfiles. apply length_map. }
  exists migrations2, w3.
  split; [exact Hd2|]. split; [exact Hfiles|].
  split; [apply (Hskip cur1 migrations2 w3 Hd2); rewrite Hsame; exact Hlen|].
  split.
  - destruct (DiffMigrations_success d w2 Hd2) as (cb & wb & Hgb & _).
    pose proof (DiffMigrations_inv d w2 Hgb) as I. cbv zeta in I. rewrite Hd2 in I.
    simpl in I. apply I.
  - intros cur2. rewrite <- Hsame.
    apply (Hskip cur2 migrations2 w3 Hd2). rewrite Hsame. exact Hlen.
Qed.

End Properties.

(** * Further properties of the code *)

(** ** [sort.go] *)

(** X1. [Less] is the strict weak order [sort.Sort] asks for:
    irreflexive, transitive, with ties exactly the pairs of equal
    versions, and ties transitive. *)
Theorem Less_strict_weak_order (s : MigrationSet) :
  (forall i, Less s i i = false) /\
  (forall i j k, Less s i j = true -> Less s j k = true -> Less s i k = true) /\
  (forall i j, (Less s i j = false /\ Less s j i = false)
               <-> Version (at_index s i) = Version (at_index s j)) /\
  (forall i j k, Less s i j = false -> Less s j i = false ->
                 Less s j k = false -> Less s k j = false ->
                 Less s i k = false /\ Less s k i = false).
Proof.
  unfold Less. split; [|split; [|split]].
  - intros i. apply Z.ltb_irrefl.
  - intros i j k H1 H2. apply Z.ltb_lt in H1, H2. apply Z.ltb_lt. lia.
  - intros i j. rewrite !Z.ltb_ge. lia.
  - intros i j k. rewrite !Z.ltb_ge. lia.
Qed.

Lemma length_store (s : MigrationSet) :
  forall (i : nat) (m : Migration), List.length (store s i m) = List.length s.
Proof.
  induction s as [|x s IH]; intros [|i] m; simpl; try reflexivity.
  now rewrite IH.
Qed.

Lemma at_index_store_same (s : MigrationSet) :
  forall (i : nat) (m : Migration),
    (i < List.length s)%nat -> at_index (store s i m) i = m.
Proof.
  unfold at_index.
  induction s as [|x s IH]; intros [|i] m Hi; simpl in *; try lia; try reflexivity.
  apply IH. lia.
Qed.

Lemma at_index_store_other (s : MigrationSet) :
  forall (i k : nat) (m : Migration),
    k <> i -> at_index (store s i m) k = at_index s k.
Proof.
  unfold at_index.
  induction s as [|x s IH]; intros [|i] [|k] m Hk; simpl; try reflexivity; try congruence.
  apply IH. congruence.
Qed.

Lemma store_head_perm (s : MigrationSet) :
  forall (j : nat) (x : Migration),
    (j < List.length s)%nat ->
    Permutation (x :: s) (at_index s j :: store s j x).
Proof.
  unfold at_index.
  induction s as [|y s IH]; intros [|j] x Hj; simpl in *; try lia.
  - apply perm_swap.
  - eapply perm_trans; [apply perm_swap|].
    eapply perm_trans; [apply perm_skip, (IH j x); lia|].
    apply perm_swap.
Qed.

Lemma Swap_perm (s : MigrationSet) :
  forall i j : nat,
    (i < List.length s)%nat -> (j < List.length s)%nat -> Permutation s (Swap s i j).
Proof.
  unfold Swap.
  induction s as [|x s IH]; intros [|i] [|j] Hi Hj; simpl in *; try lia.
  - apply Permutation_refl.
  - change (at_index (x :: s) (S j)) with (at_index s j). apply store_head_perm. lia.
  - change (at_index (x :: s) (S i)) with (at_index s i). apply store_head_perm. lia.
  - apply perm_skip. apply (IH i j); lia.
Qed.

(** X2. For two indices inside the slice, [Swap] exchanges the two
    elements, keeps the length and every other index, rearranges the
    slice and, done twice, gives the slice back. *)
Theorem Swap_exchanges (s : MigrationSet) (i j : nat) :
  (i < Len s)%nat -> (j < Len s)%nat ->
  Len (Swap s i j) = Len s /\
  at_index (Swap s i j) i = at_index s j /\
  at_index (Swap s i j) j = at_index s i /\
  (forall k, k <> i -> k <> j -> at_index (Swap s i j) k = at_index s k) /\
  Permutation s (Swap s i j) /\
  Swap (Swap s i j) i j = s.
Proof.
  unfold Len. intros Hi Hj.
  assert (List.length (Swap s i j) = List.length s) as Hlen
    by (unfold Swap; now rewrite !length_store).
  assert (at_index (Swap s i j) i = at_index s j) as Hati.
  { unfold Swap. destruct (Nat.eq_dec i j) as [->|Hne].
    - apply at_index_store_same. now rewrite length_store.
    - rewrite at_index_store_other by exact Hne. now apply at_index_store_same. }
  assert (at_index (Swap s i j) j = at_index s i) as Hatj.
  { unfold Swap. apply at_index_store_same. now rewrite length_store. }
  assert (forall k, k <> i -> k <> j -> at_index (Swap s i j) k = at_index s k) as Hatk.
  { intros k Hki Hkj. unfold Swap. now rewrite !at_index_store_other. }
  repeat split; try assumption.
  - now apply Swap_perm.
  - apply (nth_ext _ _ zero_Migration zero_Migration).
    + unfold Swap at 1. now rewrite !length_store.
    + intros k _. change (at_index (Swap (Swap s i j) i j) k = at_index s k).
      destruct (Nat.eq_dec k j) as [->|Hkj].
      * unfold Swap at 1. rewrite at_index_store_same by (rewrite length_store; lia).
        exact Hati.
      * destruct (Nat.eq_dec k i) as [->|Hki].
        -- unfold Swap at 1. rewrite at_index_store_other by exact Hkj.
           rewrite at_index_store_same by lia. exact Hatj.
        -- unfold Swap at 1. rewrite !at_index_store_other by assumption.
           now apply Hatk.
Qed.

(** X3. Whatever the slice, versions repeated or not, the sort returns a
    rearrangement of it in ascending order of version, of the same length.
    When the versions are pairwise distinct that rearrangement is the only
    one: every ascending rearrangement of the slice, whatever the strategy
    that produced it, is the slice the sort returns. *)
Theorem sort_Sort_ascending (s : MigrationSet) :
  Permutation s (sort_Sort s) /\
  StronglySorted le_version (sort_Sort s) /\
  Len (sort_Sort s) = Len s /\
  (NoDup (map Version s) ->
   forall s' : MigrationSet,
     Permutation s s' -> StronglySorted le_version s' -> s' = sort_Sort s).
Proof.
  split; [apply sort_Sort_perm|]. split; [apply sort_Sort_sorted|].
  split; [apply sort_Sort_length|].
  intros Hnd s' Hp Hs. now apply sort_Sort_canonical.
Qed.

Section Further.

Variable Schema : Type.
Variable md5hex : string -> string.
Variable sql_exec : string -> DB Schema -> DB Schema + string.

Set Default Proof Using "Type".

(** ** [ExecFile] *)

Lemma exec_blocks_run (blocks : list string) :
  forall (i : nat) (w : World Schema),
    let r := exec_blocks sql_exec i blocks w in
    (fst r = None -> run_blocks sql_exec i blocks (db w) = inl (db (snd r))) /\
    (faults w = [] ->
     faults (snd r) = [] /\
     match run_blocks sql_exec i blocks (db w) with
     | inl d' => fst r = None /\ db (snd r) = d'
     | inr e => fst r = Some e
     end).
Proof.
  induction blocks as [|b blocks IH]; intros i w; cbv zeta.
  - simpl. repeat split; auto.
  - cbn [exec_blocks run_blocks]. destruct w as [[rows sch] disk tape now lg].
    unfold bind, emit, fault, ret. simpl.
    destruct tape as [|[msg|] tape]; simpl.
    + destruct (sql_exec b _) as [d'|msg'] eqn:E; simpl.
      * match goal with |- context [exec_blocks _ _ _ ?w'] =>
                          destruct (IH (S i) w') as [H1 H2] end.
        simpl in *. split; [exact H1 | intros _; now apply H2].
      * split; [discriminate | intros _; now split].
    + split; [discriminate | discriminate].
    + destruct (sql_exec b _) as [d'|msg'] eqn:E; simpl.
      * match goal with |- context [exec_blocks _ _ _ ?w'] =>
                          destruct (IH (S i) w') as [H1 H2] end.
        simpl in *. split; [exact H1 | discriminate].
      * split; discriminate.
Qed.

(** X4. [ExecFile] is all or nothing.  Whatever fails, an error leaves the
    database as it was.  A nil error means the file was read and every
    statement between its semicolons ran, first to last, on the result of
    the one before.  With a connection and a disk that do not fail, the
    outcome is that of the statements: the database they leave, or the
    error of the first one the server rejects, with its index. *)
Theorem ExecFile_all_or_nothing (name : string) (w : World Schema) :
  let r := ExecFile sql_exec name w in
  fs (snd r) = fs w /\
  match fst r with
  | Some _ => db (snd r) = db w
  | None =>
      exists bytes,
        content (fs w) name = Some bytes /\
        run_blocks sql_exec O (Go.Split bytes ";") (db w) = inl (db (snd r))
  end /\
  (faults w = [] ->
   forall bytes,
     content (fs w) name = Some bytes ->
     match run_blocks sql_exec O (Go.Split bytes ";") (db w) with
     | inl d' => fst r = None /\ db (snd r) = d'
     | inr e => fst r = Some e
     end).
Proof.
  cbv zeta. split; [apply (ExecFile_inv sql_exec name w)|].
  destruct w as [[rows sch] disk tape now lg].
  unfold ExecFile, ReadFile, Update, exec, bind, emit, fault, ret, set_db. simpl.
  destruct (content disk name) as [bytes|] eqn:Ec.
  - destruct tape as [|[msg|] tape]; simpl; rewrite ?Ec; simpl.
    + (* nothing fails *)
      match goal with
      | |- context [exec_blocks _ ?i ?bs ?w'] =>
          pose proof (exec_blocks_run bs i w') as H; cbv zeta in H;
          destruct (exec_blocks sql_exec i bs w') as [[e|] w1]
      end; simpl in H; destruct H as [H1 H2]; destruct (H2 eq_refl) as [Hq Hrun].
      * simpl. split; [reflexivity|]. intros _ bytes' Hb. inversion Hb; subst bytes'.
        destruct (run_blocks _ _ _ _) as [d'|e']; [destruct Hrun; discriminate|].
        now inversion Hrun.
      * destruct w1 as [[rows1 sch1] disk1 tape1 now1 lg1]. simpl in *. subst tape1.
        simpl. split; [exists bytes; split; [reflexivity | now apply H1]|].
        intros _ bytes' Hb. inversion Hb; subst bytes'.
        destruct (run_blocks _ _ _ _) as [d'|e']; [|discriminate].
        destruct Hrun as [_ Hd]. now split.
    + split; [reflexivity | discriminate].
    + destruct tape as [|[msg|] tape]; simpl; try (split; [reflexivity | discriminate]).
      all: match goal with
           | |- context [exec_blocks _ ?i ?bs ?w'] =>
               pose proof (exec_blocks_run bs i w') as H; cbv zeta in H;
               destruct (exec_blocks sql_exec i bs w') as [[e|] w1]
           end; simpl in H; destruct H as [H1 _].
      all: destruct w1 as [[rows1 sch1] disk1 tape1 now1 lg1]; simpl in *.
      all: try (split; [reflexivity | discriminate]).
      all: destruct tape1 as [|[msg|] tape1]; simpl;
        (split; [first [reflexivity | exists bytes; split; [reflexivity | now apply H1]]
                | discriminate]).
  - destruct tape as [|[msg|] tape]; simpl; rewrite ?Ec; simpl;
      (split; [reflexivity | discriminate]).
Qed.

(** X5. When the file is not there, [ExecFile] returns the error of the
    read and nothing is sent to the server: no transaction is begun, the
    log gains the read alone. *)
Theorem ExecFile_missing_file (name : string) (w : World Schema) :
  content (fs w) name = None ->
  let r := ExecFile sql_exec name w in
  (exists msg, fst r = Some (ErrOS msg)) /\
  db (snd r) = db w /\
  log (snd r) = log w ++ [EvReadFile name].
Proof.
  destruct w as [[rows sch] disk tape now lg]. simpl. intros Hc.
  unfold ExecFile, ReadFile, bind, emit, fault, ret. simpl.
  destruct tape as [|[msg|] tape]; simpl; rewrite ?Hc; simpl; repeat split; eauto.
Qed.

(** ** [GetCurrentMigration] and [DiffMigrations] *)

(** X6. Reading the current migration changes neither the database nor
    the disk nor the clock, whatever the connection does.  A nil error
    comes with the first row whose id is 1; [sql.ErrNoRows] comes only
    when no row has that id; and with a connection that does not fail the
    result is that row, or [sql.ErrNoRows] with the zero migration. *)
Theorem GetCurrentMigration_reads_only (w : World Schema) :
  let r := GetCurrentMigration w in
  db (snd r) = db w /\ fs (snd r) = fs w /\ clock (snd r) = clock w /\
  (snd (fst r) = None -> find id_is_1 (db_version (db w)) = Some (fst (fst r))) /\
  (snd (fst r) = Some ErrNoRows -> find id_is_1 (db_version (db w)) = None) /\
  (faults w = [] ->
   fst r = match find id_is_1 (db_version (db w)) with
           | Some row => (row, None)
           | None => (zero_Migration, Some ErrNoRows)
           end).
Proof.
  cbv zeta. pose proof (GetCurrentMigration_inv w) as H. cbv zeta in H.
  destruct H as (Hdb & Hfs & Hclock & H).
  repeat split; try assumption.
  - intros He. now rewrite He in H.
  - intros He. rewrite He in H. now apply H.
  - apply GetCurrentMigration_quiet.
Qed.

Lemma DiffMigrations_frame (d : Database) (w : World Schema) :
  db (snd (DiffMigrations md5hex d w)) = db w /\
  fs (snd (DiffMigrations md5hex d w)) = fs w.
Proof.
  destruct (GetCurrentMigration w) as [[cur [e|]] w1] eqn:Hget.
  - pose proof (GetCurrentMigration_inv w) as G. rewrite Hget in G. simpl in G.
    unfold DiffMigrations, bind. rewrite Hget. simpl. tauto.
  - pose proof (@DiffMigrations_inv Schema md5hex d w w1 cur Hget) as H.
    cbv zeta in H. tauto.
Qed.

(** X7. [DiffMigrations] only reads: whatever it returns and whatever
    fails on the way, the database and the disk are as they were. *)
Theorem DiffMigrations_reads_only (d : Database) (w : World Schema) :
  db (snd (DiffMigrations md5hex d w)) = db w /\
  fs (snd (DiffMigrations md5hex d w)) = fs w.
Proof. apply DiffMigrations_frame. Qed.

Lemma In_candidates (cur : Migration) (disk : FS) (entries : list Entry) (m : Migration) :
  In m (candidates md5hex cur disk entries) ->
  exists e bytes version,
    In e entries /\ IsDir e = false /\ Go.Ext (path e) = ".sql" /\
    Go.ParseInt (Go.RemoveAll (Go.Base (path e)) ".sql") = inl version /\
    content disk (path e) = Some bytes /\
    m = {| ID := ""; File := path e; Hash := md5hex bytes; Version := Go.uint64 version;
           Complete := Go.uint64 version <=? Version cur; LastRun := 0 |}.
Proof.
  unfold candidates. rewrite in_flat_map. intros (e & Hin & Hm).
  unfold candidate_of in Hm.
  destruct (IsDir e) eqn:Ed; [destruct Hm|].
  destruct (String.eqb_spec (Go.Ext (path e)) ".sql") as [Ex|Ex]; [|destruct Hm].
  simpl in Hm.
  destruct (Go.ParseInt _) as [version|] eqn:Ep; [|destruct Hm].
  destruct (content disk (path e)) as [bytes|] eqn:Ec; [|destruct Hm].
  destruct Hm as [<-|[]]. exists e, bytes, version. repeat split; assumption.
Qed.

(** Over readable entries the walk function builds exactly one candidate
    for a migration file, with the path of the file, and none for another
    entry. *)
Lemma candidate_of_readable (cur : Migration) (disk : FS) (e : Entry) :
  readable disk e ->
  if is_migration_file e
  then exists m, candidate_of md5hex cur disk e = [m] /\ File m = path e
  else candidate_of md5hex cur disk e = [].
Proof.
  intros [_ Hr]. unfold is_migration_file, candidate_of.
  destruct (IsDir e) eqn:Ed; [reflexivity|]. simpl.
  destruct (String.eqb_spec (Go.Ext (path e)) ".sql") as [Ex|Ex]; [|reflexivity].
  simpl. destruct (Hr eq_refl Ex) as [[version ->] [bytes ->]].
  eexists. split; reflexivity.
Qed.

Lemma candidates_files (cur : Migration) (disk : FS) (entries : list Entry) :
  Forall (readable disk) entries ->
  map File (candidates md5hex cur disk entries)
  = map path (filter is_migration_file entries).
Proof.
  induction 1 as [|e entries He _ IH]; [reflexivity|].
  unfold candidates in *. simpl. rewrite map_app, IH.
  pose proof (candidate_of_readable cur He) as Hc.
  destruct (is_migration_file e).
  - destruct Hc as (m & -> & Hf). simpl. now rewrite Hf.
  - rewrite Hc. reflexivity.
Qed.

(** X8. A diff without error has found every entry of the walk readable:
    no entry carries an error of the walk, and every entry that is not a
    directory and whose extension is [.sql] has a name that parses and a
    content that can be read.  It returns, in the order of the walk,
    exactly one candidate for each such entry and nothing for the others:
    the files of the candidates are the paths of those entries, one for
    one.  Each candidate has the path of its file, the digest of its
    content, the version parsed from its name, an empty id and a zero
    time, and a version below 2^64. *)
Theorem DiffMigrations_returns_candidates
  (d : Database) (w w1 w' : World Schema) (cur : Migration) (migrations : list Migration) :
  GetCurrentMigration w = ((cur, None), w1) ->
  DiffMigrations md5hex d w = ((Some migrations, None), w') ->
  Forall (readable (fs w)) (tree (fs w) (migrationDir d)) /\
  map File migrations = map path (filter is_migration_file (tree (fs w) (migrationDir d))) /\
  migrations = candidates md5hex cur (fs w) (tree (fs w) (migrationDir d)) /\
  forall m, In m migrations ->
            ID m = "" /\ LastRun m = 0 /\ Go.Ext (File m) = ".sql" /\
            0 <= Version m < 2 ^ 64 /\
            exists e bytes version,
              In e (tree (fs w) (migrationDir d)) /\ IsDir e = false /\
              File m = path e /\
              content (fs w) (path e) = Some bytes /\ Hash m = md5hex bytes /\
              Go.ParseInt (Go.RemoveAll (Go.Base (path e)) ".sql") = inl version /\
              Version m = Go.uint64 version.
Proof.
  intros Hget Hdiff.
  destruct (@DiffMigrations_candidates Schema md5hex d w w1 w' cur migrations Hget Hdiff)
    as [Hm Hread].
  split; [exact Hread|].
  split; [rewrite Hm; now apply candidates_files|].
  split; [exact Hm|].
  intros m Hin. rewrite Hm in Hin.
  destruct (In_candidates _ _ _ _ Hin) as (e & bytes & version & He & Hd & Hx & Hp & Hc & ->).
  simpl. repeat split; try assumption.
  - unfold Go.uint64. apply Z.mod_pos_bound. lia.
  - unfold Go.uint64. apply Z.mod_pos_bound. lia.
  - exists e, bytes, version. repeat split; assumption.
Qed.

(** X9. When a diff succeeds: the connection and the disk do not fail,
    the tracked row is there and complete, every entry of the walk is
    readable, and no candidate carries the tracked version with another
    hash.  Then [DiffMigrations] returns the candidates of the directory
    and a nil error; the hashes of the other versions are not looked at. *)
Theorem DiffMigrations_succeeds (d : Database) (w : World Schema) (cur : Migration) :
  faults w = [] ->
  find id_is_1 (db_version (db w)) = Some cur ->
  Complete cur = true ->
  Forall (readable (fs w)) (tree (fs w) (migrationDir d)) ->
  (forall c, In c (candidates md5hex cur (fs w) (tree (fs w) (migrationDir d))) ->
             Version c = Version cur -> Hash c = Hash cur) ->
  fst (DiffMigrations md5hex d w)
  = (Some (candidates md5hex cur (fs w) (tree (fs w) (migrationDir d))), None).
Proof.
  intros Hq Hfind Hc Hread Hdrift.
  destruct (@GetCurrentMigration_quiet_world Schema w cur Hq Hfind)
    as (w1 & Hget & Hq1 & Hfs1 & _).
  rewrite (@DiffMigrations_walks Schema md5hex d w w1 cur Hget Hc). cbv zeta.
  destruct (@Walk_quiet Schema md5hex cur (tree (fs w1) (migrationDir d)) []
              (snd (emit (EvWalk (migrationDir d)) w1))) as (w' & E).
  - exact Hq1.
  - simpl. now rewrite Hfs1.
  - simpl. now rewrite Hfs1.
  - rewrite E. simpl. now rewrite Hfs1.
Qed.

(** X10. Without a row of id 1 in the table [DiffMigrations] never
    succeeds: it returns a nil slice and an error, and does not walk the
    directory; with a connection that does not fail the error is
    [sql.ErrNoRows], passed on as it is. *)
Theorem DiffMigrations_without_row (d : Database) (w : World Schema) :
  find id_is_1 (db_version (db w)) = None ->
  let r := DiffMigrations md5hex d w in
  fst (fst r) = None /\ snd (fst r) <> None /\
  snd r = snd (GetCurrentMigration w) /\
  (faults w = [] -> snd (fst r) = Some ErrNoRows).
Proof.
  intros Hnone. cbv zeta.
  pose proof (GetCurrentMigration_inv w) as G. cbv zeta in G.
  pose proof (GetCurrentMigration_quiet w) as Q.
  unfold DiffMigrations, bind.
  destruct (GetCurrentMigration w) as [[cur [e|]] w1]; simpl in *.
  - repeat split; try discriminate.
    intros Hq. specialize (Q Hq). rewrite Hnone in Q. now inversion Q.
  - destruct G as (_ & _ & _ & G). congruence.
Qed.

(** X11. A file whose name [strconv.ParseInt] rejects stops the diff: the
    error is the parse error for the name without its [.sql], the slice
    holds the candidates accepted before it, the file is not read and the
    entries after it are not visited. *)
Theorem DiffMigrations_malformed_name
  (d : Database) (w w1 w2 : World Schema) (cur : Migration)
  (pre post : list Entry) (e : Entry) (acc : list Migration) (why : Go.num_err) :
  GetCurrentMigration w = ((cur, None), w1) ->
  Complete cur = true ->
  tree (fs w1) (migrationDir d) = pre ++ e :: post ->
  Walk (walk_fn md5hex cur) pre [] (snd (emit (EvWalk (migrationDir d)) w1))
  = ((acc, None), w2) ->
  walk_err e = None -> IsDir e = false -> Go.Ext (path e) = ".sql" ->
  Go.ParseInt (Go.RemoveAll (Go.Base (path e)) ".sql") = inr why ->
  DiffMigrations md5hex d w
  = ((Some acc, Some (ErrNum (Go.RemoveAll (Go.Base (path e)) ".sql") why)), w2).
Proof.
  intros Hget Hc Htree Hpre He Hd Hx Hp.
  rewrite (@DiffMigrations_walks Schema md5hex d w w1 cur Hget Hc), Htree. cbv zeta.
  rewrite Walk_app. cbv zeta. rewrite Hpre. cbn [fst snd Walk]. unfold bind.
  rewrite (@walk_fn_malformed_name Schema md5hex cur e acc w2 why He Hd Hx Hp).
  reflexivity.
Qed.

(** ** [RunMigrations] *)

Lemma count_split (migrations : list Migration) :
  count_complete migrations + count_pending migrations
  = Z.of_nat (List.length migrations).
Proof.
  unfold count_complete, count_pending.
  induction migrations as [|m rest IH]; [reflexivity|].
  simpl. destruct (Complete m); simpl List.length; lia.
Qed.

Lemma filter_length_perm (f : Migration -> bool) (l l' : list Migration) :
  Permutation l l' -> List.length (filter f l) = List.length (filter f l').
Proof.
  induction 1 as [|x l l' Hp IH|x y l|l l' l'' H1 IH1 H2 IH2]; simpl.
  - reflexivity.
  - destruct (f x); simpl; now rewrite IH.
  - destruct (f x), (f y); reflexivity.
  - now rewrite IH1.
Qed.

(** What a run without error makes of the status it starts from. *)
Lemma run_loop_success_status (migrations : list Migration) :
  forall (st st' : MigrationStatus) (w w' : World Schema),
    0 <= Applied st -> 0 <= Skipped st ->
    Applied st + Skipped st + Z.of_nat (List.length migrations) < 2 ^ 64 ->
    run_loop sql_exec migrations st w = ((st', None), w') ->
    Applied st' = Applied st + count_pending migrations /\
    Skipped st' = Skipped st + count_complete migrations /\
    Failed st' = Failed st /\
    Latest st' = match last_pending migrations with
                 | Some m => Version m
                 | None => Latest st
                 end.
Proof.
  induction migrations as [|m rest IH]; intros st st' w w' HA HS Hroom.
  - simpl. unfold ret. intros H. inversion H; subst.
    unfold count_pending, count_complete. simpl. repeat split; lia.
  - pose proof (count_split rest) as Hsplit.
    assert (0 <= count_complete rest /\ 0 <= count_pending rest) as [Hc0 Hp0]
      by (unfold count_complete, count_pending; lia).
    assert (Z.of_nat (List.length (m :: rest)) = Z.of_nat (List.length rest) + 1) as Hlen
      by (simpl List.length; lia).
    rewrite Hlen in Hroom.
    cbn [run_loop last_pending]. unfold count_pending, count_complete. cbn [filter].
    destruct (Complete m) eqn:Ec; cbn [negb].
    + intros H. apply IH in H; unfold add_Skipped in *; simpl in *;
        rewrite ?uint64_small in * by lia; try lia.
      destruct H as (H1 & H2 & H3 & H4).
      unfold count_pending, count_complete in *. simpl List.length.
      repeat split; try lia.
      rewrite H4. now destruct (last_pending rest).
    + unfold bind.
      destruct (open_step m w) as [[e|] w1]; [discriminate|].
      destruct (ExecFile sql_exec (File m) w1) as [[e|] w2]; [discriminate|].
      destruct (complete_step m w2) as [[e|] w3]; [discriminate|].
      intros H. apply IH in H; unfold add_Applied in *; simpl in *;
        rewrite ?uint64_small in * by lia; try lia.
      destruct H as (H1 & H2 & H3 & H4).
      unfold count_pending, count_complete in *. simpl List.length.
      repeat split; try lia.
      rewrite H4. now destruct (last_pending rest).
Qed.

(** X12. The status of a run that returns a nil error: [Skipped] counts
    the complete migrations passed in, [Applied] the others, [Failed] is
    0, and [Latest] is the version of the last migration applied, in
    ascending order, or the version of [currentMigration] when none was. *)
Theorem RunMigrations_success_status
  (currentMigration : Migration) (migrations : list Migration)
  (w w' : World Schema) (st : MigrationStatus) :
  Z.of_nat (List.length migrations) <= Go.MaxInt ->
  RunMigrations sql_exec currentMigration migrations w = ((st, None), w') ->
  Applied st = count_pending migrations /\
  Skipped st = count_complete migrations /\
  Failed st = 0 /\
  Latest st = match last_pending (sort_Sort migrations) with
              | Some m => Version m
              | None => Version currentMigration
              end.
Proof.
  unfold RunMigrations, Go.MaxInt. intros Hlen Hrun.
  apply run_loop_success_status in Hrun; simpl; try lia.
  - destruct Hrun as (H1 & H2 & H3 & H4). simpl in *.
    unfold count_pending, count_complete in *.
    rewrite <- !(filter_length_perm _ (sort_Sort_perm migrations)) in *.
    repeat split; assumption.
  - rewrite sort_Sort_length. lia.
Qed.

(** X13. When every migration passed in is complete (none at all
    included), [RunMigrations] sends nothing and reads nothing: whatever
    state the connection is in, it returns a nil error and leaves the
    world as it found it. *)
Theorem RunMigrations_nothing_pending
  (currentMigration : Migration) (migrations : list Migration) (w : World Schema) :
  Forall (fun m => Complete m = true) migrations ->
  Z.of_nat (List.length migrations) <= Go.MaxInt ->
  RunMigrations sql_exec currentMigration migrations w
  = (({| Applied := 0; Failed := 0; Skipped := Z.of_nat (List.length migrations);
         Latest := Version currentMigration |}, None), w).
Proof.
  unfold RunMigrations, Go.MaxInt. intros Hall Hlen.
  rewrite (@run_loop_all_complete Schema sql_exec); simpl.
  - now rewrite sort_Sort_length.
  - eapply Permutation_Forall; [apply sort_Sort_perm | exact Hall].
  - lia.
  - rewrite sort_Sort_length. lia.
Qed.

(** X14. The loop is fail-fast for any number of migrations: once a run
    over some migrations has returned an error, the same run with more
    migrations after them returns the same status, the same error and the
    same world. *)
Theorem run_loop_stops_at_first_error (migrations post : list Migration) :
  forall (st : MigrationStatus) (w : World Schema),
    snd (fst (run_loop sql_exec migrations st w)) <> None ->
    run_loop sql_exec (migrations ++ post) st w = run_loop sql_exec migrations st w.
Proof.
  induction migrations as [|m rest IH]; intros st w.
  - simpl. congruence.
  - cbn [app run_loop]. destruct (Complete m); [apply IH|].
    unfold bind.
    destruct (open_step m w) as [[e|] w1]; [reflexivity|].
    destruct (ExecFile sql_exec (File m) w1) as [[e|] w2]; [reflexivity|].
    destruct (complete_step m w2) as [[e|] w3]; [reflexivity|].
    apply IH.
Qed.

Lemma row_kept_refl (rows : list Migration) : Forall2 row_kept rows rows.
Proof. induction rows; constructor; [split; auto | assumption]. Qed.

Lemma row_kept_map (f : Migration -> Migration) (rows0 rows : list Migration) :
  (forall r, ID (f r) = ID r /\ (id_is_1 r = false -> f r = r)) ->
  Forall2 row_kept rows0 rows -> Forall2 row_kept rows0 (map f rows).
Proof.
  intros Hf. induction 1 as [|r0 r rows0 rows [Hid Hsame] H IH]; simpl; constructor;
    [|exact IH].
  destruct (Hf r) as [Hfid Hfsame]. split; [congruence|].
  intros Hn. specialize (Hsame Hn). subst r. now apply Hfsame.
Qed.

Lemma update_open_kept (m : Migration) (now : Z) (r : Migration) :
  ID (update_open m now r) = ID r /\ (id_is_1 r = false -> update_open m now r = r).
Proof. unfold update_open. destruct (id_is_1 r); split; auto; discriminate. Qed.

Lemma update_complete_kept (version : Z) (r : Migration) :
  ID (update_complete version r) = ID r /\
  (id_is_1 r = false -> update_complete version r = r).
Proof.
  unfold update_complete. destruct (id_is_1 r); simpl.
  - destruct (Version r =? version); split; auto; discriminate.
  - split; auto.
Qed.

Lemma run_loop_rows_kept (migrations : list Migration) :
  (forall s d d', sql_exec s d = inl d' -> db_version d' = db_version d) ->
  forall (st : MigrationStatus) (w : World Schema) (rows0 : list Migration),
    Forall2 row_kept rows0 (db_version (db w)) ->
    Forall2 row_kept rows0 (db_version (db (snd (run_loop sql_exec migrations st w)))).
Proof.
  intros Hsql.
  induction migrations as [|m rest IH]; intros st w rows0 Hrows; [exact Hrows|].
  cbn [run_loop]. destruct (Complete m); [now apply IH|].
  unfold bind, log_error, emit, ret.
  pose proof (open_step_inv m w) as Ho. cbv zeta in Ho.
  destruct (open_step m w) as [[e|] w1]; simpl in Ho; destruct Ho as [_ Ho];
    [simpl; now rewrite Ho|].
  assert (Forall2 row_kept rows0 (db_version (db w1))) as Hrows1.
  { rewrite Ho. simpl. apply row_kept_map; [apply update_open_kept | exact Hrows]. }
  pose proof (ExecFile_inv sql_exec (File m) w1) as Hx. cbv zeta in Hx.
  destruct (ExecFile sql_exec (File m) w1) as [[e|] w2]; simpl in Hx;
    destruct Hx as [_ Hx]; [simpl; now rewrite Hx|].
  pose proof (complete_step_inv m w2) as Hk. cbv zeta in Hk.
  destruct (complete_step m w2) as [[e|] w3]; simpl in Hk; destruct Hk as [_ Hk].
  - destruct Hk as [Hk _]. simpl. now rewrite Hk, (Hx Hsql).
  - apply IH. rewrite Hk. simpl.
    apply row_kept_map; [apply update_complete_kept | now rewrite (Hx Hsql)].
Qed.

Lemma row_kept_untracked (rows0 rows : list Migration) :
  Forall2 row_kept rows0 rows -> find id_is_1 rows0 = None -> rows = rows0.
Proof.
  induction 1 as [|r0 r rows0 rows [Hid Hsame] H IH]; [reflexivity|].
  simpl. destruct (id_is_1 r0) eqn:E; [discriminate|].
  intros Hnone. now rewrite (Hsame eq_refl), IH.
Qed.

(** X15. A run writes to the rows with id 1 and to nothing else in the
    tracking table: it adds no row and removes none, every row keeps its
    id and its place, and a row with another id stays as it is.  So a
    table without a row of id 1 comes out of a run unchanged, whatever
    the run reports.  The scripts of the migrations are assumed not to
    write to the tracking table. *)
Theorem RunMigrations_writes_row_1_only
  (currentMigration : Migration) (migrations : list Migration) (w : World Schema) :
  (forall s db0 db1, sql_exec s db0 = inl db1 -> db_version db1 = db_version db0) ->
  let rows := db_version (db w) in
  let rows' := db_version (db (snd (RunMigrations sql_exec currentMigration migrations w))) in
  Forall2 row_kept rows rows' /\
  List.length rows' = List.length rows /\
  (find id_is_1 rows = None -> rows' = rows).
Proof.
  intros Hsql. cbv zeta. unfold RunMigrations.
  pose proof (run_loop_rows_kept (sort_Sort migrations) Hsql
                {| Applied := 0; Failed := 0; Skipped := 0;
                   Latest := Version currentMigration |}
                w (row_kept_refl (db_version (db w)))) as H.
  split; [exact H|]. split.
  - symmetry. eapply Forall2_length, H.
  - now apply row_kept_untracked.
Qed.

Lemma last_pending_largest (migrations : list Migration) (m : Migration) :
  StronglySorted le_version migrations ->
  last_pending migrations = Some m ->
  forall x, In x migrations -> Complete x = false -> Version x <= Version m.
Proof.
  induction 1 as [|a rest Hs IH Ha]; [discriminate|].
  simpl. destruct (last_pending rest) as [m'|] eqn:El.
  - intros H x [<-|Hin] Hc; inversion H; subst m'.
    + destruct (last_pending_some rest El) as [Hm _].
      rewrite Forall_forall in Ha. apply (Ha m Hm).
    + now apply IH.
  - destruct (Complete a) eqn:Ec; [discriminate|].
    intros H x [<-|Hin] Hc; inversion H; subst m; [lia|].
    pose proof (last_pending_none rest El) as Hall.
    rewrite Forall_forall in Hall. rewrite (Hall x Hin) in Hc. discriminate.
Qed.

Lemma last_pending_exists (migrations : list Migration) (x : Migration) :
  In x migrations -> Complete x = false -> exists m, last_pending migrations = Some m.
Proof.
  intros Hin Hc. destruct (last_pending migrations) as [m|] eqn:El; [eauto|].
  pose proof (last_pending_none migrations El) as Hall.
  rewrite Forall_forall in Hall. rewrite (Hall x Hin) in Hc. discriminate.
Qed.

(** X16. The checkpoint after a run without error in which something was
    pending: every row with id 1 carries the version and the hash of the
    pending migration of largest version and [complete = true], and
    [Latest] is that version.  The scripts of the migrations are assumed
    not to write to the tracking table. *)
Theorem RunMigrations_checkpoint
  (currentMigration : Migration) (migrations : list Migration)
  (w w' : World Schema) (st : MigrationStatus) (x : Migration) :
  (forall s db0 db1, sql_exec s db0 = inl db1 -> db_version db1 = db_version db0) ->
  Z.of_nat (List.length migrations) <= Go.MaxInt ->
  RunMigrations sql_exec currentMigration migrations w = ((st, None), w') ->
  In x migrations -> Complete x = false ->
  exists m,
    In m migrations /\ Complete m = false /\
    (forall y, In y migrations -> Complete y = false -> Version y <= Version m) /\
    Latest st = Version m /\
    forall row, In row (db_version (db w')) -> id_is_1 row = true ->
                Version row = Version m /\ Hash row = Hash m /\ Complete row = true.
Proof.
  intros Hsql Hlen Hrun Hx Hc.
  assert (In x (sort_Sort migrations)) as Hx'
    by (eapply Permutation_in; [apply sort_Sort_perm | exact Hx]).
  destruct (last_pending_exists _ x Hx' Hc) as [m El].
  destruct (last_pending_some _ El) as [Hm Hmc].
  exists m. split; [|split; [exact Hmc|split; [|split]]].
  - eapply Permutation_in; [apply Permutation_sym, sort_Sort_perm | exact Hm].
  - intros y Hy Hyc.
    apply (last_pending_largest (sort_Sort_sorted migrations) El); [|exact Hyc].
    eapply Permutation_in; [apply sort_Sort_perm | exact Hy].
  - unfold RunMigrations, Go.MaxInt in *.
    apply run_loop_success_status in Hrun; simpl; try lia.
    + destruct Hrun as (_ & _ & _ & H). now rewrite El in H.
    + rewrite sort_Sort_length. lia.
  - unfold RunMigrations in Hrun.
    pose proof (@run_loop_tracked Schema sql_exec (sort_Sort migrations) Hsql
                  {| Applied := 0; Failed := 0; Skipped := 0;
                     Latest := Version currentMigration |} w) as Ht.
    cbv zeta in Ht. rewrite Hrun, El in Ht. simpl in Ht.
    intros row Hin Hid. apply (Ht eq_refl row Hin Hid).
Qed.


Lemma run_loop_error_logged (migrations : list Migration) :
  forall (st st' : MigrationStatus) (w w' : World Schema) (e : error),
    run_loop sql_exec migrations st w = ((st', Some e), w') ->
    exists lg msg m,
      log w' = lg ++ [EvLogError msg (Version m) (File m) e] /\
      In m migrations /\ Complete m = false /\
      (msg = "failed to start migration" \/ msg = "failed to apply migration" \/
       msg = "failed to complete migration").
Proof.
  induction migrations as [|m rest IH]; intros st st' w w' e.
  - simpl. unfold ret. discriminate.
  - cbn [run_loop]. destruct (Complete m) eqn:Ec.
    + intros H. destruct (IH _ _ _ _ _ H) as (lg & msg & m' & Hlog & Hin & Hc & Hmsg).
      exists lg, msg, m'. repeat split; simpl; auto.
    + unfold bind, log_error, emit, ret.
      destruct (open_step m w) as [[e1|] w1].
      { intros H. inversion H; subst. simpl.
        exists (log w1), "failed to start migration", m. repeat split; simpl; auto. }
      destruct (ExecFile sql_exec (File m) w1) as [[e2|] w2].
      { intros H. inversion H; subst. simpl.
        exists (log w2), "failed to apply migration", m. repeat split; simpl; auto. }
      destruct (complete_step m w2) as [[e3|] w3].
      { intros H. inversion H; subst. simpl.
        exists (log w3), "failed to complete migration", m. repeat split; simpl; auto. }
      intros H. destruct (IH _ _ _ _ _ H) as (lg & msg & m' & Hlog & Hin & Hc & Hmsg).
      exists lg, msg, m'. repeat split; simpl; auto.
Qed.

(** X20. Every error of a run is reported: when [RunMigrations] returns
    an error, the last line it logged carries that very error with the
    version and the file of one of the migrations passed in, a migration
    that was not complete, under one of the three messages of the loop. *)
Theorem RunMigrations_error_logged
  (currentMigration : Migration) (migrations : list Migration)
  (w w' : World Schema) (st : MigrationStatus) (e : error) :
  RunMigrations sql_exec currentMigration migrations w = ((st, Some e), w') ->
  exists lg msg m,
    log w' = lg ++ [EvLogError msg (Version m) (File m) e] /\
    In m migrations /\ Complete m = false /\
    (msg = "failed to start migration" \/ msg = "failed to apply migration" \/
     msg = "failed to complete migration").
Proof.
  unfold RunMigrations. intros H.
  destruct (run_loop_error_logged _ _ _ H) as (lg & msg & m & Hlog & Hin & Hc & Hmsg).
  exists lg, msg, m. repeat split; auto.
  eapply Permutation_in; [apply Permutation_sym, sort_Sort_perm | exact Hin].
Qed.

(** ** [Dial] *)

Lemma Dial_effect (conf : Config) (w : World Schema) :
  let r := Dial conf w in
  let rows := db_version (db w) in
  fs (snd r) = fs w /\ schema (db (snd r)) = schema (db w) /\
  (db_version (db (snd r)) = rows \/
   (find id_is_1 rows = None /\ snd (fst r) = None /\
    db_version (db (snd r)) = rows ++ [bootstrap_row (clock w)])) /\
  (find id_is_1 rows <> None -> db (snd r) = db w) /\
  (snd (fst r) = None -> fst (fst r) = Some {| migrationDir := MigrationDir conf |}) /\
  (snd (fst r) <> None -> fst (fst r) = None).
Proof.
  destruct w as [[rows sch] disk tape now lg]. cbv zeta. simpl.
  unfold Dial, db_Exec. unfold_ops. simpl.
  destruct (find id_is_1 rows) as [r0|] eqn:Ef;
    tape_cases; rewrite ?Ef; simpl; tape_cases;
    repeat split; auto; try congruence.
Qed.

(** X18. What [Dial] does to the database, whatever the connection does:
    nothing outside the tracking table; in the table, nothing at all
    when a row with id 1 is there, and otherwise at most the row with
    version 0 and [complete = true] appended.  It returns the handle,
    with the directory of the configuration, exactly when it returns a
    nil error. *)
Theorem Dial_table_effect (conf : Config) (w : World Schema) :
  let r := Dial conf w in
  let rows := db_version (db w) in
  fs (snd r) = fs w /\ schema (db (snd r)) = schema (db w) /\
  (db_version (db (snd r)) = rows \/
   (find id_is_1 rows = None /\ snd (fst r) = None /\
    db_version (db (snd r)) = rows ++ [bootstrap_row (clock w)])) /\
  (find id_is_1 rows <> None -> db (snd r) = db w) /\
  (snd (fst r) = None -> fst (fst r) = Some {| migrationDir := MigrationDir conf |}) /\
  (snd (fst r) <> None -> fst (fst r) = None).
Proof. apply Dial_effect. Qed.

(** X19. Dialling again does not bootstrap again: after a [Dial] that
    returned a nil error on a table without a row of id 1, any further
    [Dial], with any configuration and whatever the connection does,
    leaves the database as the first one left it, with one bootstrap row. *)
Theorem Dial_twice (conf conf' : Config) (w : World Schema) (tape : list (option string)) :
  find id_is_1 (db_version (db w)) = None ->
  snd (fst (Dial conf w)) = None ->
  db (snd (Dial conf' (set_faults tape (snd (Dial conf w))))) = db (snd (Dial conf w)) /\
  db_version (db (snd (Dial conf w))) = db_version (db w) ++ [bootstrap_row (clock w)].
Proof.
  intros Hfresh Hnil.
  destruct (Dial_inv conf w Hfresh) as (_ & _ & Hok). cbv zeta in Hok.
  destruct (Hok Hnil) as [_ Hrows]. split; [|exact Hrows].
  pose proof (Dial_effect conf' (set_faults tape (snd (Dial conf w)))) as H.
  cbv zeta in H. destruct H as (_ & _ & _ & H & _). simpl in H.
  apply H. rewrite Hrows, find_app_none by exact Hfresh. discriminate.
Qed.

End Further.


(** * The definitions at work *)

(** ** The library pieces *)

Example ParseInt_plain : Go.ParseInt "12" = inl 12.
Proof. reflexivity. Qed.

Example ParseInt_signed : Go.ParseInt "-5" = inl (-5) /\ Go.ParseInt "+7" = inl 7.
Proof. split; reflexivity. Qed.

Example ParseInt_range : Go.ParseInt "9223372036854775808" = inr Go.ErrRange.
Proof. reflexivity. Qed.

Example ParseInt_syntax : Go.ParseInt "12a" = inr Go.ErrSyntax /\ Go.ParseInt "" = inr Go.ErrSyntax.
Proof. split; reflexivity. Qed.

Example RemoveAll_every_occurrence : Go.RemoveAll "1.sql.sql" ".sql" = "1".
Proof. reflexivity. Qed.

Example Ext_of_path : Go.Ext "db/migrations/3.sql" = ".sql" /\ Go.Ext "db.d/readme" = "".
Proof. split; reflexivity. Qed.

Example Base_of_path : Go.Base "db/migrations/3.sql" = "3.sql".
Proof. reflexivity. Qed.

Example Split_blocks : Go.Split "a;b;" ";" = ["a"; "b"; ""].
Proof. reflexivity. Qed.

Example sort_Sort_sample :
  sort_Sort [sample_m3; sample_m1; sample_m2 "x"] = [sample_m1; sample_m2 "x"; sample_m3].
Proof. reflexivity. Qed.

(** ** The end-to-end scenario: [1.sql], [2.sql], [3.sql] on disk, the
    tracked row at version 1 *)

Example end_to_end :
  let w := sample_world
             [ {| ID := "1"; File := "m/1.sql";
                  Hash := sample_md5 "create table a;create table b";
                  Version := 1; Complete := true; LastRun := 7 |} ]
             (sample_fs "alter table a") in
  let diff := DiffMigrations sample_md5 sample_dir w in
  map Complete (match fst (fst diff) with Some l => l | None => [] end)
  = [true; false; false] /\
  snd (fst diff) = None /\
  let run := RunMigrations sample_sql (bootstrap_row 0)
               (match fst (fst diff) with Some l => l | None => [] end) (snd diff) in
  fst run = ({| Applied := 2; Failed := 0; Skipped := 1; Latest := 3 |}, None) /\
  map Version (db_version (db (snd run))) = [3] /\
  map Complete (db_version (db (snd run))) = [true].
Proof. vm_compute. repeat split. Qed.

(** ** Witnesses *)

Lemma RunMigrations_fail_fast_witness :
  let r := RunMigrations sample_sql (bootstrap_row 0)
             [sample_m1; sample_m2 "boom"; sample_m3] ff_w0 in
  fst r = ({| Applied := 1; Failed := 1; Skipped := 0; Latest := 1 |}, Some ff_err) /\
  snd r = snd (emit (EvLogError "failed to apply migration" 2 "m/2.sql" ff_err) ff_w5) /\
  (forall row, In row (db_version (db (snd r))) -> id_is_1 row = true ->
               Version row = 2 /\ Complete row = false) /\
  find id_is_1 (db_version (db (snd r)))
  = option_map (update_open (sample_m2 "boom") (clock ff_w3))
      (find id_is_1 (db_version (db ff_w3))).
Proof.
  apply (@RunMigrations_fail_fast _ sample_sql (bootstrap_row 0)
           sample_m1 (sample_m2 "boom") sample_m3 ff_w0 ff_w1 ff_w2 ff_w3 ff_w4 ff_w5 ff_err).
  - simpl. lia.
  - simpl. lia.
  - reflexivity.
  - reflexivity.
  - reflexivity.
  - reflexivity.
  - reflexivity.
  - reflexivity.
  - reflexivity.
  - reflexivity.
Defined.

Lemma DiffMigrations_drift_witness :
  DiffMigrations sample_md5 sample_dir drift_w
  = ((Some [drift_m1], Some Errorf_modified), drift_w3)
  /\ ~ In drift_m2 [drift_m1]
  /\ forall a, In a [drift_m1] ->
               Version a = Version (tracked_row 2 "old" true) ->
               Hash a = Hash (tracked_row 2 "old" true).
Proof.
  apply (@DiffMigrations_drift _ sample_md5 sample_dir drift_w drift_w1 drift_w2 drift_w3
           (tracked_row 2 "old" true)
           [ {| path := "m"; IsDir := true; walk_err := None |}; file_entry "m/1.sql" ]
           [ file_entry "m/3.sql"; file_entry "m/notes.txt" ]
           (file_entry "m/2.sql") [drift_m1] drift_m2).
  - reflexivity.
  - reflexivity.
  - reflexivity.
  - reflexivity.
  - repeat split; try reflexivity. exists 2, "new". repeat split; reflexivity.
  - reflexivity.
  - simpl. discriminate.
Defined.

Lemma DiffMigrations_unresolved_witness :
  DiffMigrations sample_md5 sample_dir stuck_w
  = ((None, Some (Errorf_failed 2 "m/2.sql")), snd (GetCurrentMigration stuck_w))
  /\ log (snd (GetCurrentMigration stuck_w))
     = log stuck_w ++ [EvBegin true; EvExec SelectCurrent; EvCommit].
Proof.
  apply (@DiffMigrations_unresolved _ sample_md5 sample_dir stuck_w
           (snd (GetCurrentMigration stuck_w)) (tracked_row 2 "alter table a" false)).
  - reflexivity.
  - reflexivity.
Defined.

Lemma DiffMigrations_classifies_witness :
  (Complete drift_m1 = true <-> Version drift_m1 <= Version (tracked_row 2 "old" true)) /\
  (Complete drift_m1 = false <-> Version (tracked_row 2 "old" true) < Version drift_m1).
Proof.
  apply (@DiffMigrations_classifies _ sample_md5 sample_dir drift_w drift_w1 drift_w3
           (tracked_row 2 "old" true) [drift_m1] (Some Errorf_modified)).
  - reflexivity.
  - reflexivity.
  - simpl. auto.
Defined.

Lemma complete_step_moved_row_witness :
  let m := pending 2 "m/2.sql" "move" in
  let w1 := snd (open_step m moving_w) in
  let w := snd (ExecFile intruding_sql (File m) w1) in
  let r := complete_step m w in
  map Version (db_version (db w)) = [99] /\
  db (snd r) = db w /\
  (forall e, fst r = Some e ->
             exists msg, e = ErrDriver msg /\ In (Some msg) (faults w)) /\
  fst r = None /\
  forall (rest : list Migration) (migrationStatus : MigrationStatus),
    run_loop intruding_sql (m :: rest) migrationStatus moving_w
    = run_loop intruding_sql rest (add_Applied 2 migrationStatus) (snd r).
Proof.
  cbv zeta.
  destruct (@complete_step_moved_row _ intruding_sql (pending 2 "m/2.sql" "move")
              (snd (ExecFile intruding_sql "m/2.sql"
                      (snd (open_step (pending 2 "m/2.sql" "move") moving_w)))))
    as (Hdb & Herr & Hquiet).
  - vm_compute. intros row [<-|[]] _. discriminate.
  - destruct Hquiet as [Hnil Hrun].
    + vm_compute. intros msg [].
    + split; [reflexivity|]. split; [exact Hdb|]. split; [exact Herr|].
      split; [exact Hnil|].
      intros rest migrationStatus.
      apply (Hrun moving_w (snd (open_step (pending 2 "m/2.sql" "move") moving_w))).
      * reflexivity.
      * vm_compute. reflexivity.
      * vm_compute. reflexivity.
Defined.

(** C3, as stated, fails: the tracked row sits at version 7, the update
    for version 2 returns nil and changes nothing; and when a script moves
    the row to version 99 under the runner, the run still counts the
    migration as applied and leaves the row with [complete = false]. *)
Lemma complete_step_silent_on_moved_row :
  Version (tracked_row 7 "other" false) <> Version (sample_m2 "alter table a") /\
  db_version (db moved_w) = [tracked_row 7 "other" false] /\
  fst (complete_step (sample_m2 "alter table a") moved_w) = None /\
  db (snd (complete_step (sample_m2 "alter table a") moved_w)) = db moved_w /\
  fst (RunMigrations intruding_sql (bootstrap_row 0) [pending 2 "m/2.sql" "move"] moving_w)
  = ({| Applied := 1; Failed := 0; Skipped := 0; Latest := 2 |}, None) /\
  map (fun r => (Version r, Complete r))
      (db_version (db (snd (RunMigrations intruding_sql (bootstrap_row 0)
                              [pending 2 "m/2.sql" "move"] moving_w))))
  = [(99, false)].
Proof.
  split; [simpl; lia|]. repeat split.
Qed.

Lemma Dial_bootstrap_witness :
  let conf := {| User := "app"; Password := "secret"; Host := "localhost"; Port := "5432";
                 DatabaseName := "app"; MigrationDir := "m"; SSLDisabled := true;
                 MaxIdleConns := 0; MaxOpenConns := 0; MaxConnLifespan := 0 |} in
  let w := sample_world [] (sample_fs "alter table a") in
  let r := Dial conf w in
  let row := bootstrap_row (clock w) in
  (faults w = [] -> fst (GetCurrentMigration w) = (zero_Migration, Some ErrNoRows)) /\
  snd (fst r) <> Some ErrNoRows /\
  (faults w = [] -> snd (fst r) = None) /\
  (snd (fst r) = None ->
   fst (fst r) = Some {| migrationDir := MigrationDir conf |} /\
   db_version (db (snd r)) = db_version (db w) ++ [row] /\
   Version row = 0 /\ Complete row = true /\
   forall tape,
     let g := GetCurrentMigration (set_faults tape (snd r)) in
     snd (fst g) <> Some ErrNoRows /\
     (snd (fst g) = None -> fst (fst g) = row) /\
     (tape = [] -> fst g = (row, None))).
Proof.
  intros conf w.
  apply (@Dial_bootstrap _ conf w).
  reflexivity.
Defined.

Lemma RunMigrations_order_invariant_witness :
  StronglySorted lt_version (sort_Sort [sample_m3; sample_m1; sample_m2 "x"]) /\
  Permutation [sample_m3; sample_m1; sample_m2 "x"]
              (sort_Sort [sample_m3; sample_m1; sample_m2 "x"]) /\
  forall migrations',
    Permutation [sample_m3; sample_m1; sample_m2 "x"] migrations' ->
    forall w : World (list string),
      RunMigrations sample_sql (bootstrap_row 0) migrations' w
      = RunMigrations sample_sql (bootstrap_row 0) [sample_m3; sample_m1; sample_m2 "x"] w.
Proof.
  apply (@RunMigrations_order_invariant _ sample_sql (bootstrap_row 0)
           [sample_m3; sample_m1; sample_m2 "x"]).
  simpl. repeat constructor; simpl; intuition lia.
Defined.

Lemma sample_sql_keeps_tracking_table :
  forall s db0 db1, sample_sql s db0 = inl db1 -> db_version db1 = db_version db0.
Proof.
  intros s db0 db1. unfold sample_sql.
  destruct (String.eqb s "boom"); [discriminate|].
  intros H. inversion H. reflexivity.
Qed.

Lemma second_run_skips_all_witness :
  exists (migrations2 : list Migration) (w3 : World (list string)),
    DiffMigrations sample_md5 sample_dir twice_w2 = ((Some migrations2, None), w3) /\
    map File migrations2 = map File twice_migrations /\
    Forall (fun m => Complete m = true) migrations2 /\
    db w3 = db twice_w2 /\
    forall cur2 : Migration,
      RunMigrations sample_sql cur2 migrations2 w3
      = (({| Applied := 0; Failed := 0; Skipped := Z.of_nat (List.length twice_migrations);
             Latest := Version cur2 |}, None), w3).
Proof.
  apply (@second_run_skips_all _ sample_md5 sample_sql sample_dir
           (bootstrap_row 0) twice_w0 twice_w1 twice_w2 twice_migrations
           {| Applied := 3; Failed := 0; Skipped := 0; Latest := 3 |}).
  - exact sample_sql_keeps_tracking_table.
  - vm_compute. reflexivity.
  - vm_compute. reflexivity.
  - simpl. repeat constructor; simpl; intuition lia.
  - vm_compute. reflexivity.
  - vm_compute. discriminate.
Defined.

(** C9, as stated, fails when two files carry the same version: over
    [m/01.sql] and [m/1.sql] the first diff returns both as pending, the
    first run applies both and returns nil, and the second diff, with no
    file added or changed and no round trip failing, returns the error of
    a modified migration, so that no second run skips anything. *)
Lemma second_diff_fails_on_equal_versions :
  DiffMigrations sample_md5 sample_dir twin_w0 = ((Some twin_migrations, None), twin_w1) /\
  map Version twin_migrations = [1; 1] /\
  RunMigrations sample_sql (bootstrap_row 0) twin_migrations twin_w1
  = (({| Applied := 2; Failed := 0; Skipped := 0; Latest := 1 |}, None), twin_w2) /\
  fs twin_w2 = fs twin_w0 /\ faults twin_w2 = [] /\
  map (fun r => (Version r, Hash r, Complete r)) (db_version (db twin_w2))
  = [(1, sample_md5 "create table b", true)] /\
  fst (DiffMigrations sample_md5 sample_dir twin_w2) = (Some [], Some Errorf_modified).
Proof.
  split; [vm_compute; reflexivity|]. split; [reflexivity|].
  split; [vm_compute; reflexivity|]. split; [vm_compute; reflexivity|].
  split; [vm_compute; reflexivity|]. split; vm_compute; reflexivity.
Qed.

(** The second pass of that sample, run. *)
Example second_pass_sample :
  DiffMigrations sample_md5 sample_dir twice_w2 = ((Some twice_again, None), twice_w3) /\
  RunMigrations sample_sql (bootstrap_row 0) twice_again twice_w3
  = (({| Applied := 0; Failed := 0; Skipped := 3; Latest := 0 |}, None), twice_w3).
Proof. split; vm_compute; reflexivity. Qed.

Lemma RunMigrations_status_counts_witness :
  let r := RunMigrations sample_sql (bootstrap_row 0)
             [sample_m1; sample_m2 "boom"; sample_m3] ff_w0 in
  let st := fst (fst r) in
  let err := snd (fst r) in
  Failed st <= 1 /\
  (err = None -> Failed st = 0 /\ Applied st + Skipped st = 3) /\
  (err <> None -> Failed st = 1 /\ Applied st + Skipped st + Failed st <= 3).
Proof.
  apply (@RunMigrations_status_counts _ sample_sql (bootstrap_row 0)
           [sample_m1; sample_m2 "boom"; sample_m3] ff_w0).
  vm_compute. discriminate.
Defined.

(** ** File names with a sign *)

(** C6. A file named [-5.sql] is not rejected: [DiffMigrations] returns no
    error and a candidate whose version is [-5] wrapped around to 64 bits. *)
Theorem DiffMigrations_accepts_signed_name :
  fst (DiffMigrations sample_md5 sample_dir (sample_world [bootstrap_row 0] signed_fs))
  = (Some [ {| ID := ""; File := "m/-5.sql"; Hash := sample_md5 "create table t";
               Version := 18446744073709551611; Complete := false; LastRun := 0 |} ],
     None)
  /\ Go.ParseUint "-5" = inr Go.ErrSyntax.
Proof. split; reflexivity. Qed.

(** ** Witnesses of the further properties *)

Lemma Swap_exchanges_witness :
  let s := [sample_m1; sample_m2 "x"; sample_m3] in
  Len (Swap s 0 2) = Len s /\
  at_index (Swap s 0 2) 0 = at_index s 2 /\
  at_index (Swap s 0 2) 2 = at_index s 0 /\
  (forall k, k <> 0%nat -> k <> 2%nat -> at_index (Swap s 0 2) k = at_index s k) /\
  Permutation s (Swap s 0 2) /\
  Swap (Swap s 0 2) 0 2 = s.
Proof.
  intros s. apply (@Swap_exchanges s 0 2); simpl; lia.
Defined.

Lemma ExecFile_missing_file_witness :
  let r := ExecFile sample_sql "m/none.sql" twice_w0 in
  (exists msg, fst r = Some (ErrOS msg)) /\
  db (snd r) = db twice_w0 /\
  log (snd r) = log twice_w0 ++ [EvReadFile "m/none.sql"].
Proof.
  apply (@ExecFile_missing_file _ sample_sql "m/none.sql" twice_w0).
  reflexivity.
Defined.

Lemma DiffMigrations_returns_candidates_witness :
  Forall (readable (fs twice_w0)) (tree (fs twice_w0) (migrationDir sample_dir)) /\
  map File twice_migrations
  = map path (filter is_migration_file (tree (fs twice_w0) (migrationDir sample_dir))) /\
  twice_migrations
  = candidates sample_md5 (bootstrap_row 0) (fs twice_w0)
      (tree (fs twice_w0) (migrationDir sample_dir)) /\
  forall m, In m twice_migrations ->
            ID m = "" /\ LastRun m = 0 /\ Go.Ext (File m) = ".sql" /\
            0 <= Version m < 2 ^ 64 /\
            exists e bytes version,
              In e (tree (fs twice_w0) (migrationDir sample_dir)) /\ IsDir e = false /\
              File m = path e /\
              content (fs twice_w0) (path e) = Some bytes /\ Hash m = sample_md5 bytes /\
              Go.ParseInt (Go.RemoveAll (Go.Base (path e)) ".sql") = inl version /\
              Version m = Go.uint64 version.
Proof.
  apply (@DiffMigrations_returns_candidates _ sample_md5 sample_dir twice_w0
           (snd (GetCurrentMigration twice_w0)) twice_w1 (bootstrap_row 0) twice_migrations).
  - vm_compute. reflexivity.
  - vm_compute. reflexivity.
Defined.

Lemma sample_fs_readable :
  Forall (readable (fs twice_w0)) (tree (fs twice_w0) (migrationDir sample_dir)).
Proof.
  simpl. repeat apply Forall_cons; try apply Forall_nil.
  all: unfold readable; simpl; split; [reflexivity|].
  all: intros Hd Hx; try discriminate Hd; try discriminate Hx.
  all: split; eexists; reflexivity.
Qed.

Lemma DiffMigrations_succeeds_witness :
  fst (DiffMigrations sample_md5 sample_dir twice_w0)
  = (Some (candidates sample_md5 (bootstrap_row 0) (fs twice_w0)
             (tree (fs twice_w0) (migrationDir sample_dir))), None).
Proof.
  apply (@DiffMigrations_succeeds _ sample_md5 sample_dir twice_w0 (bootstrap_row 0)).
  - reflexivity.
  - reflexivity.
  - reflexivity.
  - exact sample_fs_readable.
  - intros c Hin Hv. vm_compute in Hin.
    destruct Hin as [<-|[<-|[<-|[]]]]; vm_compute in Hv; discriminate.
Defined.

Lemma DiffMigrations_without_row_witness :
  let r := DiffMigrations sample_md5 sample_dir rowless_world in
  fst (fst r) = None /\ snd (fst r) <> None /\
  snd r = snd (GetCurrentMigration rowless_world) /\
  (faults rowless_world = [] -> snd (fst r) = Some ErrNoRows).
Proof.
  apply (@DiffMigrations_without_row _ sample_md5 sample_dir rowless_world).
  reflexivity.
Defined.

Lemma DiffMigrations_malformed_name_witness :
  DiffMigrations sample_md5 sample_dir misnamed_world
  = ((Some [misnamed_m1], Some (ErrNum "two" Go.ErrSyntax)), misnamed_w2).
Proof.
  apply (@DiffMigrations_malformed_name _ sample_md5 sample_dir misnamed_world
           misnamed_w1 misnamed_w2 (bootstrap_row 0)
           [ {| path := "m"; IsDir := true; walk_err := None |}; file_entry "m/1.sql" ]
           [ file_entry "m/3.sql" ] (file_entry "m/two.sql") [misnamed_m1] Go.ErrSyntax).
  - vm_compute. reflexivity.
  - reflexivity.
  - reflexivity.
  - vm_compute. reflexivity.
  - reflexivity.
  - reflexivity.
  - reflexivity.
  - reflexivity.
Defined.

Lemma RunMigrations_success_status_witness :
  Applied {| Applied := 3; Failed := 0; Skipped := 0; Latest := 3 |}
  = count_pending twice_migrations /\
  Skipped {| Applied := 3; Failed := 0; Skipped := 0; Latest := 3 |}
  = count_complete twice_migrations /\
  Failed {| Applied := 3; Failed := 0; Skipped := 0; Latest := 3 |} = 0 /\
  Latest {| Applied := 3; Failed := 0; Skipped := 0; Latest := 3 |}
  = match last_pending (sort_Sort twice_migrations) with
    | Some m => Version m
    | None => Version (bootstrap_row 0)
    end.
Proof.
  apply (@RunMigrations_success_status _ sample_sql (bootstrap_row 0) twice_migrations
           twice_w1 twice_w2 {| Applied := 3; Failed := 0; Skipped := 0; Latest := 3 |}).
  - vm_compute. discriminate.
  - vm_compute. reflexivity.
Defined.

Lemma RunMigrations_nothing_pending_witness :
  RunMigrations sample_sql (bootstrap_row 0) twice_again flaky_world
  = (({| Applied := 0; Failed := 0; Skipped := Z.of_nat (List.length twice_again);
         Latest := Version (bootstrap_row 0) |}, None), flaky_world).
Proof.
  apply (@RunMigrations_nothing_pending _ sample_sql (bootstrap_row 0) twice_again
           flaky_world).
  - repeat constructor.
  - vm_compute. discriminate.
Defined.

Lemma run_loop_stops_at_first_error_witness :
  run_loop sample_sql ([sample_m1; sample_m2 "boom"] ++ [sample_m3])
    {| Applied := 0; Failed := 0; Skipped := 0; Latest := 0 |} ff_w0
  = run_loop sample_sql [sample_m1; sample_m2 "boom"]
      {| Applied := 0; Failed := 0; Skipped := 0; Latest := 0 |} ff_w0.
Proof.
  apply (@run_loop_stops_at_first_error _ sample_sql [sample_m1; sample_m2 "boom"]
           [sample_m3] {| Applied := 0; Failed := 0; Skipped := 0; Latest := 0 |} ff_w0).
  vm_compute. discriminate.
Defined.

Lemma RunMigrations_writes_row_1_only_witness :
  let rows := db_version (db crowded_world) in
  let rows' := db_version (db (snd (RunMigrations sample_sql (bootstrap_row 0)
                                      twice_migrations crowded_world))) in
  Forall2 row_kept rows rows' /\
  List.length rows' = List.length rows /\
  (find id_is_1 rows = None -> rows' = rows).
Proof.
  apply (@RunMigrations_writes_row_1_only _ sample_sql (bootstrap_row 0) twice_migrations
           crowded_world).
  exact sample_sql_keeps_tracking_table.
Defined.

Lemma RunMigrations_checkpoint_witness :
  exists m,
    In m twice_migrations /\ Complete m = false /\
    (forall y, In y twice_migrations -> Complete y = false -> Version y <= Version m) /\
    Latest {| Applied := 3; Failed := 0; Skipped := 0; Latest := 3 |} = Version m /\
    forall row, In row (db_version (db twice_w2)) -> id_is_1 row = true ->
                Version row = Version m /\ Hash row = Hash m /\ Complete row = true.
Proof.
  apply (@RunMigrations_checkpoint _ sample_sql (bootstrap_row 0) twice_migrations
           twice_w1 twice_w2 {| Applied := 3; Failed := 0; Skipped := 0; Latest := 3 |}
           sample_m1).
  - exact sample_sql_keeps_tracking_table.
  - vm_compute. discriminate.
  - vm_compute. reflexivity.
  - simpl. auto.
  - reflexivity.
Defined.


Lemma RunMigrations_error_logged_witness :
  exists lg msg m,
    log (snd (RunMigrations sample_sql (bootstrap_row 0)
                [sample_m1; sample_m2 "boom"; sample_m3] ff_w0))
    = lg ++ [EvLogError msg (Version m) (File m) ff_err] /\
    In m [sample_m1; sample_m2 "boom"; sample_m3] /\ Complete m = false /\
    (msg = "failed to start migration" \/ msg = "failed to apply migration" \/
     msg = "failed to complete migration").
Proof.
  apply (@RunMigrations_error_logged _ sample_sql (bootstrap_row 0)
           [sample_m1; sample_m2 "boom"; sample_m3] ff_w0
           (snd (RunMigrations sample_sql (bootstrap_row 0)
                   [sample_m1; sample_m2 "boom"; sample_m3] ff_w0))
           {| Applied := 1; Failed := 1; Skipped := 0; Latest := 1 |} ff_err).
  vm_compute. reflexivity.
Defined.

Lemma Dial_twice_witness :
  db (snd (Dial sample_conf (set_faults [Some "connection refused"]
                               (snd (Dial sample_conf fresh_world)))))
  = db (snd (Dial sample_conf fresh_world)) /\
  db_version (db (snd (Dial sample_conf fresh_world)))
  = db_version (db fresh_world) ++ [bootstrap_row (clock fresh_world)].
Proof.
  apply (@Dial_twice _ sample_conf sample_conf fresh_world [Some "connection refused"]).
  - reflexivity.
  - vm_compute. reflexivity.
Defined.

